(** * Shallow embedding of the embeddings orchestration pipeline of
    supavec/supabase-ai: [EmbeddingsClient] (src/src/embeddings/EmbeddingsClient.ts),
    the [SupabaseAI] configuration front (src/src/client.ts and its latest
    revision at the end of src/src/embeddings/utils.ts) and the vector maths
    of src/src/embeddings/utils.ts.

    JavaScript numbers are IEEE binary64 values, modelled by Rocq's primitive
    [float]; the remaining JavaScript values and objects are a small
    inductive type with objects as ordered association lists (the
    insertion order of JavaScript own properties). *)

From Stdlib Require Import PrimFloat ZArith String Ascii List Bool Lia DecimalString
  Permutation Sorted.
From Stdlib Require DecimalNat SpecFloat FloatOps FloatAxioms.
Import ListNotations.

#[local] Set Warnings "-inexact-float,-register-all".

Open Scope string_scope.
Open Scope list_scope.

(** ** JavaScript values *)

Inductive jsval : Type :=
| JUndef
| JNull
| JBool (b : bool)
| JNum (x : float)
| JStr (s : string)
| JArr (xs : list jsval)
| JObj (fields : list (string * jsval)).

(** A plain JavaScript object: own properties in insertion order. *)
Definition obj := list (string * jsval).

(** [0], [-0] and [NaN] are the falsy numbers ([NaN =? NaN] is false). *)
Definition truthy_num (x : float) : bool :=
  negb (PrimFloat.eqb x 0%float) && PrimFloat.eqb x x.

Definition truthy_str (s : string) : bool := negb (String.eqb s "").

(** JavaScript truthiness ([if (v)], [!v], [v && e], [v || e]). *)
Definition truthy (v : jsval) : bool :=
  match v with
  | JUndef | JNull => false
  | JBool b => b
  | JNum x => truthy_num x
  | JStr s => truthy_str s
  | JArr _ | JObj _ => true
  end.

(** [a ?? b] on optional (possibly null or undefined) typed fields. *)
Definition coalesce {A} (a : option A) (b : A) : A :=
  match a with Some x => x | None => b end.

(** [a ?? b] on untyped values. *)
Definition coalesce_v (a b : jsval) : jsval :=
  match a with JUndef | JNull => b | _ => a end.

(** [o[k]]: the own property, [undefined] when absent. *)
Fixpoint get (o : obj) (k : string) : jsval :=
  match o with
  | [] => JUndef
  | (k', v) :: o' => if String.eqb k k' then v else get o' k
  end.

(** [k in o]. *)
Fixpoint has (o : obj) (k : string) : bool :=
  match o with
  | [] => false
  | (k', _) :: o' => String.eqb k k' || has o' k
  end.

(** [o[k] = v]: an existing property keeps its position, a new one is appended. *)
Fixpoint set (o : obj) (k : string) (v : jsval) : obj :=
  match o with
  | [] => [(k, v)]
  | (k', v') :: o' =>
      if String.eqb k k' then (k', v) :: o' else (k', v') :: set o' k v
  end.

(** [{ ...o, ...p }]: the properties of [p] assigned in order onto [o]. *)
Definition spread (o p : obj) : obj :=
  fold_left (fun acc kv => set acc (fst kv) (snd kv)) p o.

(** [...(c && { k: v })]: spreading a falsy value adds nothing. *)
Definition spread_if (o : obj) (c : bool) (k : string) (v : jsval) : obj :=
  if c then set o k v else o.

(** ** Strings *)

(** The white space removed by [String.prototype.trim] (its ASCII part:
    tab, line feed, vertical tab, form feed, carriage return, space). *)
Definition js_space (c : ascii) : bool :=
  let n := nat_of_ascii c in
  (Nat.eqb n 32 || (Nat.leb 9 n && Nat.leb n 13))%bool.

Fixpoint trim_start (s : string) : string :=
  match s with
  | EmptyString => EmptyString
  | String c s' => if js_space c then trim_start s' else s
  end.

Definition string_rev (s : string) : string :=
  string_of_list_ascii (rev (list_ascii_of_string s)).

Definition trim (s : string) : string :=
  string_rev (trim_start (string_rev (trim_start s))).

(** [s.split(",")]: a string without separator splits into itself, so
    [("").split(",")] is [[""]]. *)
Fixpoint split_comma_acc (cur : string) (s : string) : list string :=
  match s with
  | EmptyString => [cur]
  | String c s' =>
      if Ascii.eqb c ","%char then cur :: split_comma_acc "" s'
      else split_comma_acc (cur ++ String c EmptyString) s'
  end.

Definition split_comma (s : string) : list string := split_comma_acc "" s.

(** ** Errors (src/src/types/errors.ts, appended to src/src/client.ts)

    Every error class of the library, and [JsError] for any other value a
    callee throws ([Error], [TypeError], ...). *)
Inductive err : Type :=
| ConfigurationError (message : string)
| ValidationError (message : string)
| DatabaseError (message : string)
| EmbeddingProviderError (message : string) (provider : string)
| JsError (message : string).

Definition err_message (e : err) : string :=
  match e with
  | ConfigurationError m | ValidationError m | DatabaseError m
  | EmbeddingProviderError m _ | JsError m => m
  end.

(** [e instanceof DatabaseError]. *)
Definition is_DatabaseError (e : err) : bool :=
  match e with DatabaseError _ => true | _ => false end.

(** ** Configuration *)

(** [EmbeddingsConfig] (types, src/unnamed/part_002); [chunkSize] is read by
    the constructor of the latest [SupabaseAI] revision. *)
Record EmbeddingsConfig : Type := {
  ec_provider : option string;
  ec_model : option string;
  ec_table : option string;
  ec_chunkSize : option float;
  ec_threshold : option float;
}.

Record SupabaseAIOptions : Type := {
  apiKey : option string;
  embeddings : option EmbeddingsConfig;
}.

(** [EmbeddingsClientConfig] without the two service handles, which are
    the environment of the sections below. *)
Record EmbeddingsClientConfig : Type := {
  cfg_table : option string;
  cfg_threshold : option float;
}.

(** The fields of an [EmbeddingsClient] instance that its methods read. *)
Record EmbeddingsClient : Type := {
  defaultTable : string;
  defaultThreshold : float;
}.

(** [new EmbeddingsClient(config)] (EmbeddingsClient.ts:21-26). *)
Definition new_EmbeddingsClient (config : EmbeddingsClientConfig) : EmbeddingsClient :=
  {| defaultTable := coalesce (cfg_table config) "documents";
     defaultThreshold := coalesce (cfg_threshold config) 0.8%float |}.

(** [Required<EmbeddingsConfig>] as the [SupabaseAI] constructor builds it. *)
Record ResolvedEmbeddingsConfig : Type := {
  rc_model : string;
  rc_table : string;
  rc_chunkSize : float;
  rc_threshold : float;
}.

Record SupabaseAI : Type := {
  embeddingsConfig : ResolvedEmbeddingsConfig;
  ai_embeddings : EmbeddingsClient;
}.

(** [options.embeddings?.f || d] for a string field. *)
Definition or_str (v : option string) (d : string) : string :=
  match v with Some s => if truthy_str s then s else d | None => d end.

(** [options.embeddings?.f || d] for a number field. *)
Definition or_num (v : option float) (d : float) : float :=
  match v with Some x => if truthy_num x then x else d | None => d end.

Definition emb_field {A} (f : EmbeddingsConfig -> option A) (o : SupabaseAIOptions) : option A :=
  match embeddings o with Some e => f e | None => None end.

(** The [embeddingsConfig] object literal of the [SupabaseAI] constructor
    (utils.ts:74-79; the same [||] defaulting as client.ts:73-78). *)
Definition resolve_config (options : SupabaseAIOptions) : ResolvedEmbeddingsConfig :=
  {| rc_model := or_str (emb_field ec_model options) "text-embedding-3-small";
     rc_table := or_str (emb_field ec_table options) "documents";
     rc_chunkSize := or_num (emb_field ec_chunkSize options) 1000%float;
     rc_threshold := or_num (emb_field ec_threshold options) 0.8%float |}.

(** [validateOptions()] (utils.ts:94-111). *)
Definition validateOptions (options : SupabaseAIOptions) (c : ResolvedEmbeddingsConfig)
  : option err :=
  if negb (match apiKey options with Some k => truthy_str k | None => false end)
  then Some (ConfigurationError "API key is required")
  else if PrimFloat.leb (rc_chunkSize c) 0%float
  then Some (ConfigurationError "chunkSize must be greater than 0")
  else if (PrimFloat.ltb (rc_threshold c) 0%float || PrimFloat.ltb 1%float (rc_threshold c))%bool
  then Some (ConfigurationError "threshold must be between 0 and 1")
  else if negb (truthy_str (trim (rc_table c)))
  then Some (ConfigurationError "table cannot be empty")
  else None.

(** [new SupabaseAI(supabaseClient, options)] (utils.ts:69-92). *)
Definition new_SupabaseAI (options : SupabaseAIOptions) : err + SupabaseAI :=
  let c := resolve_config options in
  match validateOptions options c with
  | Some e => inl e
  | None =>
      inr {| embeddingsConfig := c;
             ai_embeddings :=
               new_EmbeddingsClient {| cfg_table := Some (rc_table c);
                                       cfg_threshold := Some (rc_threshold c) |} |}
  end.

(** ** Effects

    Every call to a collaborator is recorded in a trace of events; a
    computation threads the trace and either returns or throws (an
    awaited rejection is a throw). *)

Inductive event : Type :=
| EvEmbed (input : jsval)
| EvGenId
| EvInsert (table : string) (rows : list obj)
| EvRpc (fn : string) (params : obj).

Definition trace := list event.

Definition M (A : Type) : Type := trace -> (err + A) * trace.

Definition ret {A} (x : A) : M A := fun t => (inr x, t).
Definition throw {A} (e : err) : M A := fun t => (inl e, t).
Definition bind {A B} (m : M A) (f : A -> M B) : M B :=
  fun t => match m t with
           | (inl e, t') => (inl e, t')
           | (inr x, t') => f x t'
           end.
(** [try { m } catch (e) { h(e) }]. *)
Definition try_catch {A} (m : M A) (h : err -> M A) : M A :=
  fun t => match m t with
           | (inl e, t') => h e t'
           | (inr x, t') => (inr x, t')
           end.

Notation "x <- m ;; k" := (bind m (fun x => k))
  (at level 61, m at next level, right associativity).

Fixpoint count_gen (t : trace) : nat :=
  match t with
  | [] => 0
  | EvGenId :: t' => S (count_gen t')
  | _ :: t' => count_gen t'
  end.

(** What each insert call received, in call order. *)
Fixpoint inserts (t : trace) : list (string * list obj) :=
  match t with
  | [] => []
  | EvInsert tb rows :: t' => (tb, rows) :: inserts t'
  | _ :: t' => inserts t'
  end.

Fixpoint embeds (t : trace) : list jsval :=
  match t with
  | [] => []
  | EvEmbed x :: t' => x :: embeds t'
  | _ :: t' => embeds t'
  end.

(** Options of [store] and [search] (types, src/unnamed/part_002). *)
Record StoreOptions : Type := {
  so_table : option string;
  so_generateId : option bool;
  so_batchSize : option Z;
}.

Record SearchOptions : Type := {
  sr_table : option string;
  sr_limit : option float;
  sr_threshold : option float;
  sr_filters : option obj;
  sr_metadata : option obj;
  sr_select : option string;
  sr_orderBy : option string;
  sr_includeDistance : option bool;
  sr_rpc : option string;
}.

(** [options?.f] *)
Definition opt {O A} (f : O -> option A) (o : option O) : option A :=
  match o with Some x => f x | None => None end.

(** [arr.slice(s, e)] with the clamping of negative and out-of-range ends. *)
Definition js_slice {A} (l : list A) (s e : Z) : list A :=
  let n := Z.of_nat (length l) in
  let k := if (s <? 0)%Z then Z.max (n + s) 0 else Z.min s n in
  let f := if (e <? 0)%Z then Z.max (n + e) 0 else Z.min e n in
  firstn (Z.to_nat (f - k)) (skipn (Z.to_nat k) l).

Definition table_required : string :=
  "Table name is required. Provide either options.table or set defaultTable in constructor.".

(** Whether a [for] loop ran out of its iteration budget: the loop of
    [store] is written with fuel so that its divergence can be stated. *)
Inductive outcome : Type := Done | OutOfFuel.

Section Embeddings.

(** The collaborators: the embedding provider ([createEmbedding], answering
    with one vector per input), [generateId] ([crypto.randomUUID], the n-th
    call answering [uuid n]), the insert of the Supabase client (resolving
    to [{ error }] with an optional error message, or rejecting), and its
    [rpc] (resolving to [{ data, error }], or rejecting). Each may depend on
    everything called before. *)
Variable createEmbedding : trace -> jsval -> err + list jsval.
Variable uuid : nat -> string.
Variable insert : trace -> string -> list obj -> err + option string.
Variable rpc : trace -> string -> obj -> err + (option (list obj) * option string).

Definition create (input : jsval) : M (list jsval) :=
  fun t => (createEmbedding t input, t ++ [EvEmbed input]).

Definition generateId : M string :=
  fun t => (inr (uuid (count_gen t)), t ++ [EvGenId]).

Definition call_insert (table : string) (batch : list obj) : M (option string) :=
  fun t => (insert t table batch, t ++ [EvInsert table batch]).

Definition call_rpc (fn : string) (params : obj) : M (option (list obj) * option string) :=
  fun t => (rpc t fn params, t ++ [EvRpc fn params]).

(** [normalizeStoreInput(item)] (EmbeddingsClient.ts:28-39). *)
Definition normalizeStoreInput (item : obj) : obj :=
  if has item "pageContent" then
    let o := [("content", get item "pageContent")] in
    let o := spread_if o (truthy (get item "metadata")) "metadata" (get item "metadata") in
    spread_if o (truthy (get item "id")) "id" (get item "id")
  else item.

Definition special_key (k : string) : bool :=
  (String.eqb k "content" || String.eqb k "metadata" || String.eqb k "id")%bool.

(** The record literal of EmbeddingsClient.ts:68-77. *)
Definition record_of (n : obj) (embeddings : list jsval) : obj :=
  spread [("content", get n "content");
          ("embedding", nth 0 embeddings JUndef);
          ("metadata", coalesce_v (get n "metadata") (JObj []))]
         (filter (fun kv => negb (special_key (fst kv))) n).

(** One iteration of the record-assembly loop (EmbeddingsClient.ts:62-87). *)
Definition process_item (generateIds : bool) (item : obj) : M obj :=
  let normalizedItem := normalizeStoreInput item in
  embeddings <- create (get normalizedItem "content") ;;
  let record := record_of normalizedItem embeddings in
  if truthy (get normalizedItem "id") then ret (set record "id" (get normalizedItem "id"))
  else if generateIds then (id <- generateId ;; ret (set record "id" (JStr id)))
  else ret record.

Fixpoint process_items (generateIds : bool) (data : list obj) : M (list obj) :=
  match data with
  | [] => ret []
  | item :: data' =>
      record <- process_item generateIds item ;;
      records <- process_items generateIds data' ;;
      ret (record :: records)
  end.

(** [for (let i = 0; i < processedData.length; i += batchSize)]
    (EmbeddingsClient.ts:89-100); [fuel] bounds the number of iterations. *)
Fixpoint insert_loop (fuel : nat) (table : string) (batchSize : Z)
    (processedData : list obj) (i : Z) : M outcome :=
  if (i <? Z.of_nat (length processedData))%Z then
    match fuel with
    | O => ret OutOfFuel
    | S fuel' =>
        error <- call_insert table (js_slice processedData i (i + batchSize)) ;;
        match error with
        | Some m => throw (DatabaseError ("Failed to store embeddings: " ++ m))
        | None => insert_loop fuel' table batchSize processedData (i + batchSize)
        end
    end
  else ret Done.

Definition resolve_store_table (c : EmbeddingsClient) (options : option StoreOptions) : string :=
  coalesce (opt so_table options) (defaultTable c).

Definition store_batchSize (options : option StoreOptions) : Z :=
  coalesce (opt so_batchSize options) 100%Z.

(** The batch size as a length, for a positive [batchSize]. *)
Definition store_batch_nat (options : option StoreOptions) : nat :=
  Z.to_nat (store_batchSize options).

Definition store_generateIds (options : option StoreOptions) : bool :=
  match opt so_generateId options with Some true => true | _ => false end.

(** [store(data, options)] (EmbeddingsClient.ts:48-101). *)
Definition store (fuel : nat) (c : EmbeddingsClient) (data : list obj)
    (options : option StoreOptions) : M outcome :=
  let table := resolve_store_table c options in
  if negb (truthy_str table) then throw (ValidationError table_required)
  else
    let batchSize := store_batchSize options in
    let generateIds := store_generateIds options in
    processedData <- process_items generateIds data ;;
    insert_loop fuel table batchSize processedData 0.

End Embeddings.

(** ** [Array.prototype.sort] as Node's engine (V8) runs it

    V8 sorts with TimSort. Below 64 elements the minimum run length is the
    whole array, so the sort is: find the leading run ([CountAndMakeRun]:
    a strictly descending run is reversed in place), then insert every
    remaining element into the sorted prefix by binary search
    ([BinaryInsertionSort]). [v8_sort] is that path; the results of
    [search] are bounded by [match_count], 10 by default. *)
Section V8Sort.
Context {A : Type} (comparefn : A -> A -> Z).

Fixpoint run_desc (prev : A) (l : list A) : nat :=
  match l with
  | [] => 0
  | x :: l' => if (comparefn x prev <? 0)%Z then S (run_desc x l') else 0
  end.

Fixpoint run_asc (prev : A) (l : list A) : nat :=
  match l with
  | [] => 0
  | x :: l' => if (comparefn x prev <? 0)%Z then 0 else S (run_asc x l')
  end.

Definition count_and_make_run (l : list A) : list A * nat :=
  match l with
  | a0 :: a1 :: l' =>
      if (comparefn a1 a0 <? 0)%Z then
        let r := 2 + run_desc a1 l' in (rev (firstn r l) ++ skipn r l, r)
      else (l, 2 + run_asc a1 l')
  | _ => (l, length l)
  end.

(** [while (left < right)] of [BinaryInsertionSort]; [right - left]
    shrinks at every step, so [length sorted + 1] steps suffice. *)
Fixpoint bin_search (fuel : nat) (pivot : A) (sorted : list A) (left right : nat) : nat :=
  match fuel with
  | O => left
  | S fuel' =>
      if Nat.ltb left right then
        let mid := left + (right - left) / 2 in
        if (comparefn pivot (nth mid sorted pivot) <? 0)%Z
        then bin_search fuel' pivot sorted left mid
        else bin_search fuel' pivot sorted (S mid) right
      else left
  end.

Definition insert_pivot (sorted : list A) (pivot : A) : list A :=
  let left := bin_search (S (length sorted)) pivot sorted 0 (length sorted) in
  firstn left sorted ++ pivot :: skipn left sorted.

Definition v8_sort (l : list A) : list A :=
  if Nat.ltb (length l) 2 then l
  else let (l', r) := count_and_make_run l in
       fold_left insert_pivot (skipn r l') (firstn r l').

End V8Sort.

(** ** Relational comparison [a > b]

    Two strings compare by code units (bytes here); otherwise both sides are
    converted to numbers. Only the empty (or blank) string converts to [0];
    other strings, objects and arrays are taken as [NaN] here, so a
    comparison of a numeric string with a number is not modelled. *)
Definition to_number (v : jsval) : float :=
  match v with
  | JNum x => x
  | JBool true => 1%float
  | JBool false => 0%float
  | JNull => 0%float
  | JStr s => if String.eqb (trim s) "" then 0%float else PrimFloat.nan
  | JUndef | JArr _ | JObj _ => PrimFloat.nan
  end.

Definition js_gt (a b : jsval) : bool :=
  match a, b with
  | JStr x, JStr y => String.ltb y x
  | _, _ => PrimFloat.ltb (to_number b) (to_number a)
  end.

(** The comparator of EmbeddingsClient.ts:155-159. *)
Definition orderBy_cmp (orderBy : string) (a b : obj) : Z :=
  if js_gt (get a orderBy) (get b orderBy) then 1%Z else (-1)%Z.

(** ** Search post-processing (EmbeddingsClient.ts:139-169) *)

Definition is_undefined (v : jsval) : bool :=
  match v with JUndef => true | _ => false end.

(** The projection of one row on the [select] fields. *)
Definition select_row (selectFields : list string) (item : obj) : obj :=
  fold_left (fun filtered field =>
               if is_undefined (get item field) then filtered
               else set filtered field (get item field))
            selectFields [].

Definition apply_select (options : option SearchOptions) (results : list obj) : list obj :=
  match opt sr_select options with
  | Some s =>
      if truthy_str s then map (select_row (map trim (split_comma s))) results
      else results
  | None => results
  end.

Definition apply_orderBy (options : option SearchOptions) (results : list obj) : list obj :=
  match opt sr_orderBy options with
  | Some k =>
      if (truthy_str k && negb (String.eqb k "similarity"))%bool
      then v8_sort (orderBy_cmp k) results
      else results
  | None => results
  end.

Definition apply_includeDistance (options : option SearchOptions) (results : list obj) : list obj :=
  match opt sr_includeDistance options with
  | Some true =>
      map (fun item => set item "similarity" (coalesce_v (get item "similarity") (JNum 0%float)))
          results
  | _ => results
  end.

Definition postprocess (options : option SearchOptions) (data : option (list obj)) : list obj :=
  apply_includeDistance options (apply_orderBy options (apply_select options (coalesce data []))).

Definition resolve_search_table (c : EmbeddingsClient) (options : option SearchOptions) : string :=
  coalesce (opt sr_table options) (defaultTable c).

Definition search_rpc_name (options : option SearchOptions) : string :=
  coalesce (opt sr_rpc options) "match_documents".

Section Search.

Variable createEmbedding : trace -> jsval -> err + list jsval.
Variable rpc : trace -> string -> obj -> err + (option (list obj) * option string).

Definition rpc_params (c : EmbeddingsClient) (table : string) (queryEmbedding : list jsval)
    (options : option SearchOptions) : obj :=
  let threshold := coalesce (opt sr_threshold options) (defaultThreshold c) in
  let limit := coalesce (opt sr_limit options) 10%float in
  let rpcParams := [("query_embedding", nth 0 queryEmbedding JUndef);
                    ("match_threshold", JNum threshold);
                    ("match_count", JNum limit);
                    ("table_name", JStr table)] in
  let rpcParams := match opt sr_filters options with
                   | Some f => set rpcParams "filters" (JObj f)
                   | None => rpcParams
                   end in
  match opt sr_metadata options with
  | Some m => set rpcParams "metadata_filter" (JObj m)
  | None => rpcParams
  end.

(** The [catch] clause of EmbeddingsClient.ts:170-178. *)
Definition search_handler (e : err) : M (list obj) :=
  if is_DatabaseError e then throw e
  else throw (DatabaseError ("Search operation failed: " ++ err_message e)).

(** [search(query, options)] (EmbeddingsClient.ts:103-179). *)
Definition search (c : EmbeddingsClient) (query : string) (options : option SearchOptions)
  : M (list obj) :=
  let table := resolve_search_table c options in
  if negb (truthy_str table) then throw (ValidationError table_required)
  else
    queryEmbedding <- create createEmbedding (JStr query) ;;
    let rpcFunction := search_rpc_name options in
    try_catch
      (r <- call_rpc rpc rpcFunction (rpc_params c table queryEmbedding options) ;;
       match snd r with
       | Some m => throw (DatabaseError ("Search failed: " ++ m))
       | None => ret (postprocess options (fst r))
       end)
      search_handler.

End Search.

(** ** Vector maths (src/src/embeddings/utils.ts:39-55) *)

(** The loop of [cosineSimilarity]: [b[i]] past the end of [b] is
    [undefined], a [NaN] operand. *)
Fixpoint cos_loop (a b : list float) (dotProduct normA normB : float) : float * float * float :=
  match a with
  | [] => (dotProduct, normA, normB)
  | x :: a' =>
      let y := hd PrimFloat.nan b in
      cos_loop a' (tl b) (dotProduct + x * y)%float (normA + x * x)%float (normB + y * y)%float
  end.

Definition cosineSimilarity (a b : list float) : err + float :=
  if negb (Nat.eqb (length a) (length b))
  then inl (JsError "Vectors must have the same length")
  else
    let '(dotProduct, normA, normB) := cos_loop a b 0%float 0%float 0%float in
    inr (dotProduct / (PrimFloat.sqrt normA * PrimFloat.sqrt normB))%float.

(** [dotProduct] and [magnitude], the VectorMath functions listed in
    src/README.md. *)
Fixpoint dot_loop (a b : list float) (product : float) : float :=
  match a with
  | [] => product
  | x :: a' => dot_loop a' (tl b) (product + x * hd PrimFloat.nan b)%float
  end.

Definition dotProduct (a b : list float) : err + float :=
  if negb (Nat.eqb (length a) (length b))
  then inl (JsError "Vectors must have the same length")
  else inr (dot_loop a b 0%float).

Fixpoint sum_squares (v : list float) (sum : float) : float :=
  match v with
  | [] => sum
  | x :: v' => sum_squares v' (sum + x * x)%float
  end.

Definition magnitude (v : list float) : float := PrimFloat.sqrt (sum_squares v 0%float).

(** ** Chunking, as the spec describes the partition of [store]

    Consecutive chunks of [b] records, the last one possibly shorter. *)
Fixpoint chunks_fuel {A} (fuel b : nat) (l : list A) : list (list A) :=
  match fuel with
  | O => []
  | S fuel' =>
      match l with
      | [] => []
      | _ => firstn b l :: chunks_fuel fuel' b (skipn b l)
      end
  end.

Definition chunks {A} (b : nat) (l : list A) : list (list A) := chunks_fuel (length l) b l.

(** The insert calls of [store], one per chunk, as a sequence. *)
Section Batches.
Variable insert : trace -> string -> list obj -> err + option string.

Fixpoint run_batches (table : string) (batches : list (list obj)) : M outcome :=
  match batches with
  | [] => ret Done
  | batch :: batches' =>
      error <- call_insert insert table batch ;;
      match error with
      | Some m => throw (DatabaseError ("Failed to store embeddings: " ++ m))
      | None => run_batches table batches'
      end
  end.
End Batches.

(** ** Fixtures: a provider answering every call with one vector, a
    Supabase client whose inserts succeed, a fixed [randomUUID]. *)
Definition provider_ok : trace -> jsval -> err + list jsval :=
  fun _ _ => inr [JArr [JNum 0.1%float; JNum 0.2%float; JNum 0.3%float]].

Definition uuid_mock : nat -> string := fun _ => "mock-uuid-123".

Definition insert_ok : trace -> string -> list obj -> err + option string :=
  fun _ _ _ => inr None.

Definition client_default : EmbeddingsClient :=
  new_EmbeddingsClient {| cfg_table := None; cfg_threshold := None |}.

Definition store_options (table : option string) (generateId : option bool)
    (batchSize : option Z) : StoreOptions :=
  {| so_table := table; so_generateId := generateId; so_batchSize := batchSize |}.

Definition search_options (orderBy : option string) : SearchOptions :=
  {| sr_table := None; sr_limit := None; sr_threshold := None; sr_filters := None;
     sr_metadata := None; sr_select := None; sr_orderBy := orderBy;
     sr_includeDistance := None; sr_rpc := None |}.

Definition options_threshold (x : float) : SupabaseAIOptions :=
  {| apiKey := Some "test-api-key";
     embeddings := Some {| ec_provider := None; ec_model := None; ec_table := None;
                           ec_chunkSize := None; ec_threshold := Some x |} |}.

(** Inserts that fail from the [n]-th call on. *)
Definition insert_fails_from (n : nat) : trace -> string -> list obj -> err + option string :=
  fun t _ _ => if Nat.ltb (length (inserts t)) n then inr None else inr (Some "boom").

Definition docs_abc : list obj :=
  [[("content", JStr "a")]; [("content", JStr "b")]; [("content", JStr "c")]].

Definition options_batch1 : option StoreOptions := Some (store_options None None (Some 1%Z)).

(** An [rpc] that rejects with a [TypeError]. *)
Definition rpc_throws : trace -> string -> obj -> err + (option (list obj) * option string) :=
  fun _ _ _ => inl (JsError "fetch failed").

(** An [rpc] answering with the given rows. *)
Definition rpc_rows (rows : list obj) : trace -> string -> obj -> err + (option (list obj) * option string) :=
  fun _ _ _ => inr (Some rows, None).

(** Two rows created at the same instant. *)
Definition rows_tied : list obj :=
  [[("id", JStr "a"); ("created_at", JNum 1%float)];
   [("id", JStr "b"); ("created_at", JNum 1%float)]].

(** ** Text chunking (src/src/embeddings/utils.ts:1-17)

    [chunkSize] and [overlap] are integers here; [fuel] bounds the
    iterations of the [for] loop, as in [store]. *)

(** [s.split(sep)] for a one-character separator. *)
Fixpoint split_char_acc (sep : ascii) (cur s : string) : list string :=
  match s with
  | EmptyString => [cur]
  | String c s' =>
      if Ascii.eqb c sep then cur :: split_char_acc sep "" s'
      else split_char_acc sep (cur ++ String c EmptyString) s'
  end.

Definition split_char (sep : ascii) (s : string) : list string := split_char_acc sep "" s.

(** [xs.join(sep)]. *)
Fixpoint join (sep : string) (xs : list string) : string :=
  match xs with
  | [] => ""
  | [x] => x
  | x :: xs' => x ++ sep ++ join sep xs'
  end.

(** [for (let i = 0; i < words.length; i += chunkSize - overlap)]: push
    the chunk, then [break] once it reaches the last word. *)
Fixpoint chunk_loop (fuel : nat) (words : list string) (chunkSize overlap i : Z)
  : list string * outcome :=
  if (i <? Z.of_nat (length words))%Z then
    match fuel with
    | O => ([], OutOfFuel)
    | S fuel' =>
        let chunk := join " " (js_slice words i (i + chunkSize)) in
        if (Z.of_nat (length words) <=? i + chunkSize)%Z then ([chunk], Done)
        else let '(chunks, o) := chunk_loop fuel' words chunkSize overlap (i + (chunkSize - overlap)) in
             (chunk :: chunks, o)
    end
  else ([], Done).

(** [chunkText(text, chunkSize, overlap)]; the default [overlap] is [0]. *)
Definition chunkText (fuel : nat) (text : string) (chunkSize overlap : Z) : list string * outcome :=
  chunk_loop fuel (split_char " "%char text) chunkSize overlap 0.

(** ** Filters (src/src/embeddings/utils.ts:23-37)

    [Object.entries] lists own properties in the order of [obj]. *)

(** [typeof v === "object" && v !== null]. *)
Definition is_object (v : jsval) : bool :=
  match v with JObj _ | JArr _ => true | _ => false end.

(** The property key of an array index: its decimal digits. *)
Definition index_key (i : nat) : string := NilZero.string_of_uint (Nat.to_uint i).

Fixpoint index_entries (i : nat) (xs : list jsval) : obj :=
  match xs with
  | [] => []
  | x :: xs' => (index_key i, x) :: index_entries (S i) xs'
  end.

(** [Object.entries(v)] of an object or an array. *)
Definition entries (v : jsval) : obj :=
  match v with
  | JObj fields => fields
  | JArr xs => index_entries 0 xs
  | _ => []
  end.

(** [buildFilters(filters)]. *)
Definition buildFilters (filters : obj) : obj :=
  fold_left (fun query kv =>
               let '(key, value) := kv in
               if is_object value then
                 fold_left (fun q ov => set q (key ++ "." ++ fst ov)%string (snd ov)) (entries value) query
               else set query (key ++ ".eq")%string value)
            filters [].

(** Strings without a ["."]. *)
Fixpoint no_dot (s : string) : bool :=
  match s with
  | EmptyString => true
  | String c s' => negb (Ascii.eqb c "."%char) && no_dot s'
  end.

(** The assignments of [buildFilters], in the order it makes them. *)
Definition filter_assignments (filters : obj) : obj :=
  flat_map (fun kv =>
              let '(key, value) := kv in
              if is_object value then map (fun ov => ((key ++ "." ++ fst ov)%string, snd ov)) (entries value)
              else [((key ++ ".eq")%string, value)])
           filters.

(** ** [EmbeddingsClient.similarity] (EmbeddingsClient.ts:181-184) *)

Fixpoint nums (l : list jsval) : option (list float) :=
  match l with
  | [] => Some []
  | JNum x :: l' => option_map (cons x) (nums l')
  | _ => None
  end.

(** A vector as [cosineSimilarity] reads it: an array of numbers
    ([number[][]] is the provider's answer type). A vector the provider did
    not return is [undefined], and [a.length] throws a [TypeError]; answers
    outside [number[][]] are taken to throw as well. *)
Definition vec_of (v : jsval) : option (list float) :=
  match v with JArr l => nums l | _ => None end.

Section Similarity.
Variable createEmbedding : trace -> jsval -> err + list jsval.

Definition similarity (text1 text2 : string) : M float :=
  embeddings <- create createEmbedding (JArr [JStr text1; JStr text2]) ;;
  match vec_of (nth 0 embeddings JUndef), vec_of (nth 1 embeddings JUndef) with
  | Some a, Some b =>
      match cosineSimilarity a b with inl e => throw e | inr r => ret r end
  | _, _ => throw (JsError "Cannot read properties of undefined (reading 'length')")
  end.

End Similarity.

(** ** [OpenAIProvider] (src/unnamed/part_001, the embeddings/providers
    module) *)

(** [input: string | string[]] *)
Inductive embed_input : Type :=
| InputStr (s : string)
| InputArr (l : list string).

(** [CreateOptions] (types, src/unnamed/part_002). *)
Record CreateOptions : Type := {
  co_model : option string;
  co_dimensions : option float;
}.

Record OpenAIProvider : Type := {
  op_model : string;
  op_dimensions : float;
}.

(** [new OpenAIProvider(apiKey, model = 'text-embedding-3-small')]; the API
    key only reaches the OpenAI client. *)
Definition new_OpenAIProvider (model : option string) : OpenAIProvider :=
  let model := coalesce model "text-embedding-3-small" in
  {| op_model := model;
     op_dimensions := if String.eqb model "text-embedding-3-large" then 3072%float else 1536%float |}.

(** The argument of [this.client.embeddings.create]. *)
Record EmbeddingRequest : Type := {
  rq_model : string;
  rq_input : list string;
  rq_dimensions : float;
}.

Definition openai_request (p : OpenAIProvider) (input : embed_input) (options : option CreateOptions)
  : EmbeddingRequest :=
  let model := coalesce (opt co_model options) (op_model p) in
  let inputArray := match input with InputStr s => [s] | InputArr l => l end in
  {| rq_model := model; rq_input := inputArray;
     rq_dimensions := coalesce (opt co_dimensions options) (op_dimensions p) |}.

(** [createEmbedding(input, options)]; [embeddings_create] is the OpenAI
    client's call, answering with [response.data] or rejecting. *)
Definition openai_createEmbedding (embeddings_create : EmbeddingRequest -> err + list obj)
    (p : OpenAIProvider) (input : embed_input) (options : option CreateOptions) : err + list jsval :=
  match embeddings_create (openai_request p input options) with
  | inl error => inl (EmbeddingProviderError ("OpenAI embedding error: " ++ err_message error) "openai")
  | inr data => inr (map (fun embedding => get embedding "embedding") data)
  end.

(** An insert into [table]. *)
Definition is_insert_into (table : string) (ev : event) : Prop :=
  exists rows, ev = EvInsert table rows.

(** * Properties *)

(** ** Objects *)

Lemma get_set_same (o : obj) k v : get (set o k v) k = v.
Proof.
  induction o as [|[k' v'] o IH]; simpl.
  - now rewrite String.eqb_refl.
  - destruct (String.eqb k k') eqn:E; simpl; rewrite ?E; auto.
Qed.

Lemma get_set_other (o : obj) k k' v : k' <> k -> get (set o k v) k' = get o k'.
Proof.
  intros Hne. induction o as [|[k0 v0] o IH]; simpl.
  - apply String.eqb_neq in Hne. now rewrite Hne.
  - destruct (String.eqb k k0) eqn:E; simpl.
    + apply String.eqb_eq in E; subst k0.
      apply String.eqb_neq in Hne. now rewrite Hne.
    + now rewrite IH.
Qed.

Lemma has_set (o : obj) k k' v : has (set o k v) k' = (String.eqb k' k || has o k')%bool.
Proof.
  induction o as [|[k0 v0] o IH]; simpl.
  - now rewrite orb_false_r.
  - destruct (String.eqb k k0) eqn:E; simpl.
    + apply String.eqb_eq in E; subst k0.
      destruct (String.eqb k' k); reflexivity.
    + rewrite IH. destruct (String.eqb k' k0), (String.eqb k' k); reflexivity.
Qed.

Lemma has_spread (o p : obj) k :
  has (spread o p) k = (has o k || existsb (fun kv => String.eqb k (fst kv)) p)%bool.
Proof.
  unfold spread. revert o. induction p as [|[k0 v0] p IH]; intros o; simpl.
  - now rewrite orb_false_r.
  - rewrite IH, has_set. simpl.
    destruct (String.eqb k k0), (has o k); reflexivity.
Qed.

Lemma get_undef_of_has (o : obj) k : has o k = false -> get o k = JUndef.
Proof.
  induction o as [|[k0 v0] o IH]; simpl; auto.
  intros H. apply orb_false_iff in H as [H1 H2]. rewrite H1. auto.
Qed.

Lemma truthy_undef : truthy JUndef = false.
Proof. reflexivity. Qed.

(** The [id] that [normalizeStoreInput] keeps is the item's own when truthy. *)
Lemma normalize_id (item : obj) :
  truthy (get (normalizeStoreInput item) "id") = truthy (get item "id") /\
  (truthy (get item "id") = true -> get (normalizeStoreInput item) "id" = get item "id").
Proof.
  unfold normalizeStoreInput.
  destruct (has item "pageContent"); [|split; auto].
  unfold spread_if.
  destruct (truthy (get item "id")) eqn:Hid.
  - rewrite get_set_same. split; auto.
  - destruct (truthy (get item "metadata")).
    + rewrite get_set_other by discriminate. simpl. split; auto; discriminate.
    + simpl. split; auto; discriminate.
Qed.

(** No record assembled by [record_of] has an [id] property of its own. *)
Lemma record_of_no_id (n : obj) e : has (record_of n e) "id" = false.
Proof.
  unfold record_of. rewrite has_spread.
  apply orb_false_iff; split; [reflexivity|].
  induction n as [|[k v] n IH]; [reflexivity|].
  cbn [filter fst]. destruct (special_key k) eqn:Hk; cbn [negb existsb]; [exact IH|].
  rewrite IH, orb_false_r. cbn [fst]. apply String.eqb_neq.
  intros <-. discriminate.
Qed.

Lemma count_gen_app (t t' : trace) : count_gen (t ++ t') = count_gen t + count_gen t'.
Proof.
  induction t as [|e t IH]; simpl; auto.
  destruct e; simpl; rewrite ?IH; auto.
Qed.

Lemma inserts_app (t t' : trace) : inserts (t ++ t') = inserts t ++ inserts t'.
Proof.
  induction t as [|e t IH]; simpl; auto.
  destruct e; simpl; rewrite ?IH; auto.
Qed.

(** ** Identity of assembled records *)

(** C2 (amended): a truthy [id] of the input (a non-empty string) is the
    record's [id] and no identity is generated; without a truthy [id] the
    record has no [id] property unless [generateIds], in which case its [id]
    is the next generated value, produced by exactly one [generateId]
    call. *)
Theorem process_item_id (createEmbedding : trace -> jsval -> err + list jsval)
    (uuid : nat -> string) (generateIds : bool) (item : obj) (t : trace) (v : list jsval) :
  createEmbedding t (get (normalizeStoreInput item) "content") = inr v ->
  exists record t',
    process_item createEmbedding uuid generateIds item t = (inr record, t') /\
    (truthy (get item "id") = true ->
       get record "id" = get item "id" /\ count_gen t' = count_gen t) /\
    (truthy (get item "id") = false -> generateIds = false ->
       has record "id" = false /\ count_gen t' = count_gen t) /\
    (truthy (get item "id") = false -> generateIds = true ->
       get record "id" = JStr (uuid (count_gen t)) /\ count_gen t' = S (count_gen t)).
Proof.
  intros Hv. destruct (normalize_id item) as [E1 E2].
  unfold process_item, bind, create, ret. cbv zeta. rewrite Hv.
  destruct (truthy (get item "id")) eqn:Hid; rewrite E1.
  - eexists _, _; split; [reflexivity|].
    rewrite count_gen_app. simpl.
    repeat split; try discriminate.
    + rewrite get_set_same. auto.
    + lia.
  - destruct generateIds.
    + unfold generateId. eexists _, _; split; [reflexivity|].
      rewrite !count_gen_app. simpl.
      repeat split; try discriminate.
      * rewrite get_set_same. do 2 f_equal. lia.
      * lia.
    + eexists _, _; split; [reflexivity|].
      rewrite count_gen_app. simpl.
      repeat split; try discriminate.
      * apply record_of_no_id.
      * lia.
Qed.

Lemma process_item_id_witness :
  provider_ok [] (get (normalizeStoreInput [("content", JStr "x")]) "content") = inr
    [JArr [JNum 0.1%float; JNum 0.2%float; JNum 0.3%float]] /\
  exists record t',
    process_item provider_ok uuid_mock true [("content", JStr "x")] [] = (inr record, t') /\
    (truthy (get [("content", JStr "x")] "id") = true ->
       get record "id" = get [("content", JStr "x")] "id" /\ count_gen t' = count_gen []) /\
    (truthy (get [("content", JStr "x")] "id") = false -> true = false ->
       has record "id" = false /\ count_gen t' = count_gen []) /\
    (truthy (get [("content", JStr "x")] "id") = false -> true = true ->
       get record "id" = JStr (uuid_mock (count_gen [])) /\ count_gen t' = S (count_gen [])).
Proof.
  split; [reflexivity|].
  apply (process_item_id provider_ok uuid_mock true [("content", JStr "x")] []
           [JArr [JNum 0.1%float; JNum 0.2%float; JNum 0.3%float]]).
  reflexivity.
Defined.

(** C2 counterexample: an explicitly supplied empty-string [id] is not the
    record's [id]; with [generateId] off the record has no [id] at all. *)
Lemma process_item_empty_id_dropped :
  exists record t',
    process_item provider_ok uuid_mock false [("content", JStr "x"); ("id", JStr "")] []
      = (inr record, t') /\
    has record "id" = false /\ get record "id" <> JStr "".
Proof.
  eexists _, _. split; [reflexivity|]. split; [reflexivity|]. simpl. discriminate.
Qed.

(** ** Normalisation of input documents *)

(** C9 (amended): an item with a [pageContent] property normalises to an
    object with [content] set to it and with [metadata] and [id] copied
    unchanged exactly when the item's value for them is truthy (so an
    absent metadata stays absent and an empty-string [id] is dropped), and
    nothing else; an item without [pageContent] is returned as it is. *)
Theorem normalizeStoreInput_shape (item : obj) :
  (has item "pageContent" = true ->
     get (normalizeStoreInput item) "content" = get item "pageContent" /\
     has (normalizeStoreInput item) "metadata" = truthy (get item "metadata") /\
     (truthy (get item "metadata") = true ->
        get (normalizeStoreInput item) "metadata" = get item "metadata") /\
     has (normalizeStoreInput item) "id" = truthy (get item "id") /\
     (truthy (get item "id") = true -> get (normalizeStoreInput item) "id" = get item "id") /\
     (forall k, has (normalizeStoreInput item) k = true ->
        k = "content" \/ k = "metadata" \/ k = "id")) /\
  (has item "pageContent" = false -> normalizeStoreInput item = item).
Proof.
  unfold normalizeStoreInput. split; intros Hp; rewrite Hp; [|reflexivity].
  unfold spread_if.
  destruct (truthy (get item "metadata")), (truthy (get item "id")); cbn;
    repeat split; try discriminate; auto;
    intros k Hk;
    (destruct (String.eqb_spec k "content"); [now left|]);
    (destruct (String.eqb_spec k "metadata"); [now (right; left)|]);
    (destruct (String.eqb_spec k "id"); [now (right; right)|]);
    exfalso; cbn in Hk; rewrite ?has_set in Hk;
    repeat match type of Hk with context [String.eqb k ?s] =>
      let E := fresh in destruct (String.eqb_spec k s) as [E|E]; [congruence|]
    end; cbn in Hk; discriminate.
Qed.

Lemma normalizeStoreInput_shape_witness :
  has [("pageContent", JStr "X"); ("metadata", JObj [("a", JNum 1%float)])] "pageContent" = true /\
  normalizeStoreInput [("pageContent", JStr "X"); ("metadata", JObj [("a", JNum 1%float)])]
    = [("content", JStr "X"); ("metadata", JObj [("a", JNum 1%float)])] /\
  get (normalizeStoreInput [("pageContent", JStr "X");
                            ("metadata", JObj [("a", JNum 1%float)])]) "content" = JStr "X".
Proof.
  split; [reflexivity|]. split; [reflexivity|].
  exact (proj1 (proj1 (normalizeStoreInput_shape
                         [("pageContent", JStr "X"); ("metadata", JObj [("a", JNum 1%float)])])
                      eq_refl)).
Defined.

(** C9 counterexample: an [id] that is present (the empty string) is not
    copied through. *)
Lemma normalizeStoreInput_empty_id :
  has [("pageContent", JStr "X"); ("id", JStr "")] "id" = true /\
  normalizeStoreInput [("pageContent", JStr "X"); ("id", JStr "")] = [("content", JStr "X")].
Proof. split; reflexivity. Qed.

(** ** [store] of no documents *)

(** C3 (amended): [store([])] makes no provider call and no insert call (the
    trace is unchanged); it returns normally when a table name is resolved
    and fails with the [ValidationError] otherwise, the table check coming
    first. *)
Theorem store_empty (createEmbedding : trace -> jsval -> err + list jsval)
    (uuid : nat -> string) (insert : trace -> string -> list obj -> err + option string)
    (fuel : nat) (c : EmbeddingsClient) (options : option StoreOptions) (t : trace) :
  store createEmbedding uuid insert fuel c [] options t =
  (if truthy_str (resolve_store_table c options) then inr Done
   else inl (ValidationError table_required), t).
Proof.
  unfold store. destruct (truthy_str (resolve_store_table c options)); simpl;
    [destruct fuel|]; reflexivity.
Qed.

(** C3 counterexample: with [options.table = ""] the empty store fails. *)
Lemma store_empty_no_table :
  store provider_ok uuid_mock insert_ok 0 client_default []
        (Some (store_options (Some "") None None)) []
  = (inl (ValidationError table_required), []).
Proof. reflexivity. Qed.

(** ** Threshold defaulting *)

(** C1 (code bug): [new EmbeddingsClient] keeps a configured threshold of
    [0], but [new SupabaseAI] with [embeddings.threshold = 0] resolves it
    with [||] to [0.8], the threshold its client then sends to the search
    procedure. *)
Theorem SupabaseAI_threshold_zero :
  defaultThreshold (new_EmbeddingsClient {| cfg_table := None; cfg_threshold := Some 0%float |})
    = 0%float /\
  exists ai, new_SupabaseAI (options_threshold 0%float) = inr ai /\
    rc_threshold (embeddingsConfig ai) = 0.8%float /\
    defaultThreshold (ai_embeddings ai) = 0.8%float /\
    forall queryEmbedding,
      get (rpc_params (ai_embeddings ai) "documents" queryEmbedding None) "match_threshold"
      = JNum 0.8%float.
Proof.
  split; [reflexivity|].
  eexists. split; [vm_compute; reflexivity|]. split; [reflexivity|]. split; [reflexivity|].
  intros queryEmbedding. reflexivity.
Qed.

(** ** Chunks *)

Section ChunkFacts.
Context {A : Type}.

Lemma firstn_min (x : list A) (m b : nat) : m = Nat.min b (length x) -> firstn m x = firstn b x.
Proof.
  revert m b. induction x as [|a x IH]; intros m b ->; simpl.
  - rewrite Nat.min_0_r. now rewrite !firstn_nil.
  - destruct b as [|b]; simpl; auto. f_equal. apply IH. reflexivity.
Qed.

Lemma js_slice_nat (l : list A) (j b : nat) :
  j < length l ->
  js_slice l (Z.of_nat j) (Z.of_nat j + Z.of_nat b) = firstn b (skipn j l).
Proof.
  intros Hj. unfold js_slice.
  replace (Z.of_nat j <? 0)%Z with false by (symmetry; apply Z.ltb_ge; lia).
  replace (Z.of_nat j + Z.of_nat b <? 0)%Z with false by (symmetry; apply Z.ltb_ge; lia).
  replace (Z.to_nat (Z.min (Z.of_nat j) (Z.of_nat (length l)))) with j by lia.
  apply firstn_min. rewrite length_skipn. lia.
Qed.

Variable b : nat.
Hypothesis Hb : 1 <= b.

Lemma chunks_fuel_enough (f1 f2 : nat) (l : list A) :
  length l <= f1 -> length l <= f2 -> chunks_fuel f1 b l = chunks_fuel f2 b l.
Proof.
  revert f2 l. induction f1 as [|f1 IH]; intros f2 l H1 H2.
  - destruct l; [|simpl in H1; lia]. destruct f2; reflexivity.
  - destruct l as [|a l]; [destruct f2; reflexivity|].
    destruct f2 as [|f2]; [simpl in H2; lia|].
    cbn [chunks_fuel]. f_equal. apply IH; rewrite length_skipn; cbn [length] in *; lia.
Qed.

Lemma concat_chunks_fuel (f : nat) (l : list A) :
  length l <= f -> concat (chunks_fuel f b l) = l.
Proof.
  revert l. induction f as [|f IH]; intros l H.
  - destruct l; [reflexivity|simpl in H; lia].
  - destruct l as [|a l]; [reflexivity|].
    cbn [chunks_fuel concat]. rewrite IH.
    + apply firstn_skipn.
    + rewrite length_skipn. cbn [length] in *. lia.
Qed.

Lemma chunks_fuel_sizes (f : nat) (l : list A) :
  Forall (fun ch => 1 <= length ch <= b) (chunks_fuel f b l).
Proof.
  revert l. induction f as [|f IH]; intros l; [constructor|].
  destruct l as [|a l]; [constructor|].
  cbn [chunks_fuel]. constructor; auto.
  rewrite length_firstn. simpl. lia.
Qed.

Lemma chunks_fuel_count (f : nat) (l : list A) :
  length l <= f -> length (chunks_fuel f b l) = (length l + b - 1) / b.
Proof.
  revert l. induction f as [|f IH]; intros l H.
  - destruct l; [|simpl in H; lia]. simpl. symmetry. apply Nat.div_small. lia.
  - destruct l as [|a l].
    + destruct f; simpl; symmetry; apply Nat.div_small; lia.
    + cbn [chunks_fuel length]. rewrite IH by (rewrite length_skipn; cbn [length] in *; lia).
      rewrite length_skipn. simpl length.
      destruct (Nat.le_gt_cases (S (length l)) b) as [Hle|Hgt].
      * replace (S (length l) - b) with 0 by lia.
        rewrite (Nat.div_small (0 + b - 1) b) by lia.
        apply (Nat.div_unique _ _ 1 (S (length l) - 1)); lia.
      * replace (S (length l) + b - 1) with ((S (length l) - b + b - 1) + 1 * b) by lia.
        rewrite Nat.div_add by lia. lia.
Qed.

Lemma chunks_fuel_full (f : nat) (l : list A) (k : nat) :
  S k < length (chunks_fuel f b l) -> length (nth k (chunks_fuel f b l) []) = b.
Proof.
  revert l k. induction f as [|f IH]; intros l k H; [simpl in H; lia|].
  destruct l as [|a l]; [simpl in H; lia|].
  cbn [chunks_fuel] in *. destruct k as [|k].
  - simpl. rewrite length_firstn.
    destruct (skipn b (a :: l)) eqn:Es.
    + destruct f; simpl in H; lia.
    + assert (length (skipn b (a :: l)) > 0) by (rewrite Es; simpl; lia).
      rewrite length_skipn in *. lia.
  - simpl. apply IH. simpl in H. lia.
Qed.

End ChunkFacts.

(** ** The insert loop *)

Section InsertLoop.
Variable insert : trace -> string -> list obj -> err + option string.
Variable table : string.

(** With a positive [batchSize] the [for] loop issues the insert calls of
    the consecutive chunks, one after the other. *)
Lemma insert_loop_chunks (b : nat) (records : list obj) :
  1 <= b ->
  forall fuel j t, length records - j <= fuel ->
  insert_loop insert fuel table (Z.of_nat b) records (Z.of_nat j) t
  = run_batches insert table (chunks_fuel fuel b (skipn j records)) t.
Proof.
  intros Hb fuel. induction fuel as [|fuel IH]; intros j t Hf.
  - cbn [insert_loop chunks_fuel run_batches].
    replace (Z.of_nat j <? Z.of_nat (length records))%Z with false
      by (symmetry; apply Z.ltb_ge; lia).
    reflexivity.
  - cbn [insert_loop].
    destruct (Z.ltb_spec (Z.of_nat j) (Z.of_nat (length records))) as [Hlt|Hge].
    + assert (Hne : skipn j records <> []).
      { intros E. apply (f_equal (@length obj)) in E. rewrite length_skipn in E.
        simpl in E. lia. }
      destruct (skipn j records) as [|r rs] eqn:Es; [congruence|].
      cbn [chunks_fuel run_batches]. rewrite <- Es.
      rewrite js_slice_nat by lia.
      unfold bind, call_insert.
      destruct (insert t table (firstn b (skipn j records))) as [e|[m|]]; auto.
      rewrite <- Nat2Z.inj_add, IH by lia.
      rewrite skipn_skipn, Nat.add_comm. reflexivity.
    + rewrite skipn_all2 by lia. reflexivity.
Qed.

Lemma run_batches_ok (batches : list (list obj)) (t : trace) :
  (forall t' tb rows, insert t' tb rows = inr None) ->
  run_batches insert table batches t = (inr Done, t ++ map (EvInsert table) batches).
Proof.
  intros Hok. revert t. induction batches as [|batch batches IH]; intros t.
  - simpl. now rewrite app_nil_r.
  - cbn [run_batches]. unfold bind, call_insert. rewrite Hok, IH.
    rewrite <- app_assoc. reflexivity.
Qed.

Lemma run_batches_fail (batches : list (list obj)) (t : trace) (k : nat) (m : string) :
  k < length batches ->
  (forall t' tb rows, length (inserts t') < length (inserts t) + k -> insert t' tb rows = inr None) ->
  (forall t' tb rows, length (inserts t') = length (inserts t) + k -> insert t' tb rows = inr (Some m)) ->
  run_batches insert table batches t
  = (inl (DatabaseError ("Failed to store embeddings: " ++ m)),
     t ++ map (EvInsert table) (firstn (S k) batches)).
Proof.
  revert t k. induction batches as [|batch batches IH]; intros t k Hk Hok Hfail;
    [simpl in Hk; lia|].
  cbn [run_batches]. unfold bind, call_insert.
  destruct k as [|k].
  - rewrite Hfail by lia. reflexivity.
  - rewrite Hok by lia. rewrite (IH _ k).
    + rewrite <- app_assoc. reflexivity.
    + simpl in Hk. lia.
    + intros t' tb rows H. apply Hok. rewrite inserts_app in H.
      rewrite length_app in H. simpl in H. lia.
    + intros t' tb rows H. apply Hfail. rewrite inserts_app in H.
      rewrite length_app in H. simpl in H. lia.
Qed.

Lemma run_batches_returns (batches : list (list obj)) (t : trace) :
  fst (run_batches insert table batches t) <> inr OutOfFuel.
Proof.
  revert t. induction batches as [|batch batches IH]; intros t; simpl; [discriminate|].
  unfold bind, call_insert. destruct (insert t table batch) as [e|[m|]]; simpl;
    [discriminate|discriminate|apply IH].
Qed.

(** With [batchSize = 0] the index stays at [0]: every iteration inserts
    the empty batch [slice(0, 0)]. *)
Lemma insert_loop_zero (records : list obj) (fuel : nat) (t : trace) :
  records <> [] ->
  (forall t' tb rows, insert t' tb rows = inr None) ->
  insert_loop insert fuel table 0 records 0 t
  = (inr OutOfFuel, t ++ repeat (EvInsert table []) fuel).
Proof.
  intros Hne Hok. revert t. induction fuel as [|fuel IH]; intros t.
  - destruct records as [|r rs]; [congruence|]. simpl. now rewrite app_nil_r.
  - destruct records as [|r rs]; [congruence|].
    cbn [insert_loop]. unfold bind, call_insert.
    replace (0 <? Z.of_nat (length (r :: rs)))%Z with true
      by (symmetry; apply Z.ltb_lt; simpl; lia).
    replace (js_slice (r :: rs) 0 (0 + 0)) with (@nil obj) by reflexivity.
    rewrite Hok. simpl Z.add. rewrite IH.
    rewrite <- app_assoc. reflexivity.
Qed.

End InsertLoop.

(** ** Record assembly *)

Section Assembly.
Variable createEmbedding : trace -> jsval -> err + list jsval.
Variable uuid : nat -> string.
Hypothesis provider_answers : forall t x, exists v, createEmbedding t x = inr v.

Lemma process_item_ok (generateIds : bool) (item : obj) (t : trace) :
  exists record t', process_item createEmbedding uuid generateIds item t = (inr record, t')
               /\ inserts t' = inserts t.
Proof.
  destruct (provider_answers t (get (normalizeStoreInput item) "content")) as [v Hv].
  unfold process_item, bind, create, ret. cbv zeta. rewrite Hv.
  destruct (truthy (get (normalizeStoreInput item) "id")); [|destruct generateIds];
    unfold generateId; eexists _, _; split; try reflexivity;
    rewrite ?inserts_app; simpl; now rewrite ?app_nil_r.
Qed.

Lemma process_items_ok (generateIds : bool) (data : list obj) (t : trace) :
  exists records t', process_items createEmbedding uuid generateIds data t = (inr records, t')
                /\ length records = length data /\ inserts t' = inserts t.
Proof.
  revert t. induction data as [|item data IH]; intros t.
  - eexists _, _. split; [reflexivity|]. auto.
  - destruct (process_item_ok generateIds item t) as (r & t1 & E1 & I1).
    destruct (IH t1) as (rs & t2 & E2 & L2 & I2).
    exists (r :: rs), t2. cbn [process_items]. unfold bind at 1. rewrite E1.
    unfold bind. rewrite E2. split; [reflexivity|]. simpl. split; congruence.
Qed.
End Assembly.

(** Any run of the assembly loop that returns has one record per document. *)
Lemma process_items_length createEmbedding uuid generateIds (data : list obj) t records t' :
  process_items createEmbedding uuid generateIds data t = (inr records, t') ->
  length records = length data.
Proof.
  revert t records t'. induction data as [|item data IH]; intros t records t' E.
  - injection E as <- <-. reflexivity.
  - cbn [process_items] in E. unfold bind at 1 in E.
    destruct (process_item createEmbedding uuid generateIds item t) as [[e|r] t1]; [discriminate|].
    unfold bind in E.
    destruct (process_items createEmbedding uuid generateIds data t1) as [[e|rs] t2] eqn:E2;
      [discriminate|].
    injection E as <- <-. simpl. f_equal. eapply IH. exact E2.
Qed.

Lemma store_unfold createEmbedding uuid insert fuel c data options t :
  truthy_str (resolve_store_table c options) = true ->
  store createEmbedding uuid insert fuel c data options t
  = match process_items createEmbedding uuid (store_generateIds options) data t with
    | (inl e, t') => (inl e, t')
    | (inr records, t') =>
        insert_loop insert fuel (resolve_store_table c options) (store_batchSize options)
                    records 0 t'
    end.
Proof. intros H. unfold store. rewrite H. reflexivity. Qed.

(** ** Batching of [store] *)

Lemma store_loop_chunks insert fuel table (options : option StoreOptions) records t :
  (1 <= store_batchSize options)%Z -> length records <= fuel ->
  insert_loop insert fuel table (store_batchSize options) records 0 t
  = run_batches insert table (chunks (store_batch_nat options) records) t.
Proof.
  intros Hb Hf. unfold chunks.
  assert (Hbz : store_batchSize options = Z.of_nat (store_batch_nat options))
    by (unfold store_batch_nat; lia).
  rewrite Hbz. change 0%Z with (Z.of_nat 0).
  rewrite insert_loop_chunks by (unfold store_batch_nat; lia).
  rewrite skipn_O. f_equal. apply chunks_fuel_enough; unfold store_batch_nat; lia.
Qed.

(** C4: with a positive batch size (100 when omitted), a provider that
    answers and inserts that succeed, [store] returns after one insert call
    per chunk of the assembled records, in order: the chunks are
    consecutive, at most [batchSize] long, all but the last exactly
    [batchSize] long, [ceil(n / batchSize)] of them; 250 documents in
    batches of 100 give chunks of 100, 100 and 50 records. *)
Theorem store_batches (createEmbedding : trace -> jsval -> err + list jsval)
    (uuid : nat -> string) (insert : trace -> string -> list obj -> err + option string)
    (fuel : nat) (c : EmbeddingsClient) (data : list obj) (options : option StoreOptions)
    (t : trace) :
  truthy_str (resolve_store_table c options) = true ->
  (1 <= store_batchSize options)%Z ->
  (forall t' x, exists v, createEmbedding t' x = inr v) ->
  (forall t' tb rows, insert t' tb rows = inr None) ->
  length data <= fuel ->
  exists records t1,
    process_items createEmbedding uuid (store_generateIds options) data t = (inr records, t1) /\
    length records = length data /\
    store createEmbedding uuid insert fuel c data options t
      = (inr Done, t1 ++ map (EvInsert (resolve_store_table c options))
                             (chunks (store_batch_nat options) records)) /\
    concat (chunks (store_batch_nat options) records) = records /\
    length (chunks (store_batch_nat options) records)
      = (length data + store_batch_nat options - 1) / store_batch_nat options /\
    Forall (fun ch => 1 <= length ch <= store_batch_nat options)
           (chunks (store_batch_nat options) records) /\
    (forall k, S k < length (chunks (store_batch_nat options) records) ->
       length (nth k (chunks (store_batch_nat options) records) []) = store_batch_nat options) /\
    (length data = 250 -> store_batchSize options = 100%Z ->
       map (@length obj) (chunks (store_batch_nat options) records) = [100; 100; 50]).
Proof.
  intros Htable Hb Hprov Hok Hf.
  destruct (process_items_ok createEmbedding uuid Hprov (store_generateIds options) data t)
    as (records & t1 & E & L & _).
  assert (Hb' : 1 <= store_batch_nat options) by (unfold store_batch_nat; lia).
  assert (Hcount : length (chunks (store_batch_nat options) records)
                   = (length data + store_batch_nat options - 1) / store_batch_nat options).
  { unfold chunks. rewrite chunks_fuel_count; auto. }
  assert (Hfull : forall k, S k < length (chunks (store_batch_nat options) records) ->
            length (nth k (chunks (store_batch_nat options) records) []) = store_batch_nat options).
  { intros k. unfold chunks. apply chunks_fuel_full; auto. }
  assert (Hconcat : concat (chunks (store_batch_nat options) records) = records).
  { unfold chunks. apply concat_chunks_fuel; auto. }
  exists records, t1. split; [exact E|]. split; [exact L|]. split.
  { rewrite store_unfold, E by exact Htable.
    rewrite store_loop_chunks by lia. apply run_batches_ok; auto. }
  split; [exact Hconcat|]. split; [exact Hcount|]. split.
  { unfold chunks. apply chunks_fuel_sizes; auto. }
  split; [exact Hfull|].
  intros H250 H100.
  assert (Hb100 : store_batch_nat options = 100) by (unfold store_batch_nat; rewrite H100; reflexivity).
  rewrite Hb100 in Hcount, Hfull, Hconcat |- *. rewrite H250 in Hcount.
  change ((250 + 100 - 1) / 100) with 3 in Hcount.
  destruct (chunks 100 records) as [|c0 [|c1 [|c2 [|c3 cs]]]]; simpl in Hcount; try lia.
  pose proof (Hfull 0 ltac:(simpl; lia)) as H0. pose proof (Hfull 1 ltac:(simpl; lia)) as H1.
  simpl in H0, H1.
  apply (f_equal (@length obj)) in Hconcat. rewrite L, H250 in Hconcat. simpl in Hconcat.
  rewrite !length_app in Hconcat. simpl in Hconcat. simpl. rewrite H0, H1.
  replace (length c2) with 50 by lia. reflexivity.
Qed.

Lemma store_batches_witness :
  exists records t1,
    process_items provider_ok uuid_mock (store_generateIds None) [[("content", JStr "a")]] []
      = (inr records, t1) /\
    length records = length [[("content", JStr "a")]] /\
    store provider_ok uuid_mock insert_ok 1 client_default [[("content", JStr "a")]] None []
      = (inr Done, t1 ++ map (EvInsert (resolve_store_table client_default None))
                             (chunks (store_batch_nat None) records)) /\
    concat (chunks (store_batch_nat None) records) = records /\
    length (chunks (store_batch_nat None) records)
      = (length [[("content", JStr "a")]] + store_batch_nat None - 1) / store_batch_nat None /\
    Forall (fun ch => 1 <= length ch <= store_batch_nat None)
           (chunks (store_batch_nat None) records) /\
    (forall k, S k < length (chunks (store_batch_nat None) records) ->
       length (nth k (chunks (store_batch_nat None) records) []) = store_batch_nat None) /\
    (length [[("content", JStr "a")]] = 250 -> store_batchSize None = 100%Z ->
       map (@length obj) (chunks (store_batch_nat None) records) = [100; 100; 50]).
Proof.
  apply (store_batches provider_ok uuid_mock insert_ok 1 client_default
           [[("content", JStr "a")]] None []).
  - reflexivity.
  - unfold store_batchSize. simpl. lia.
  - intros t' x. eexists. reflexivity.
  - intros t' tb rows. reflexivity.
  - simpl. lia.
Defined.

(** C5: when the insert of chunk [k] (counted from 0) reports an error
    after the earlier ones succeeded, [store] fails with a [DatabaseError]
    wrapping the message; the chunks up to [k] were sent, in order, and
    nothing is called afterwards: no later chunk and no compensation. *)
Theorem store_insert_failure (createEmbedding : trace -> jsval -> err + list jsval)
    (uuid : nat -> string) (insert : trace -> string -> list obj -> err + option string)
    (fuel : nat) (c : EmbeddingsClient) (data : list obj) (options : option StoreOptions)
    (t : trace) (records : list obj) (t1 : trace) (k : nat) (m : string) :
  truthy_str (resolve_store_table c options) = true ->
  (1 <= store_batchSize options)%Z ->
  length data <= fuel ->
  process_items createEmbedding uuid (store_generateIds options) data t = (inr records, t1) ->
  k < length (chunks (store_batch_nat options) records) ->
  (forall t' tb rows, length (inserts t') < length (inserts t1) + k -> insert t' tb rows = inr None) ->
  (forall t' tb rows, length (inserts t') = length (inserts t1) + k ->
     insert t' tb rows = inr (Some m)) ->
  store createEmbedding uuid insert fuel c data options t
  = (inl (DatabaseError ("Failed to store embeddings: " ++ m)),
     t1 ++ map (EvInsert (resolve_store_table c options))
               (firstn (S k) (chunks (store_batch_nat options) records))).
Proof.
  intros Htable Hb Hf E Hk Hok Hfail.
  rewrite store_unfold, E by exact Htable.
  rewrite store_loop_chunks.
  - apply run_batches_fail; auto.
  - exact Hb.
  - rewrite (process_items_length _ _ _ _ _ _ _ E). exact Hf.
Qed.

Lemma store_insert_failure_witness :
  exists records t1,
    process_items provider_ok uuid_mock (store_generateIds options_batch1) docs_abc []
      = (inr records, t1) /\
    store provider_ok uuid_mock (insert_fails_from 1) 3 client_default docs_abc options_batch1 []
    = (inl (DatabaseError ("Failed to store embeddings: " ++ "boom")),
       t1 ++ map (EvInsert (resolve_store_table client_default options_batch1))
                 (firstn 2 (chunks (store_batch_nat options_batch1) records))).
Proof.
  eexists _, _. split; [reflexivity|].
  apply (store_insert_failure provider_ok uuid_mock (insert_fails_from 1) 3 client_default
           docs_abc options_batch1 [] _ _ 1 "boom").
  - reflexivity.
  - unfold store_batchSize. simpl. lia.
  - simpl. lia.
  - reflexivity.
  - simpl. lia.
  - intros t' tb rows H. simpl in H. unfold insert_fails_from.
    replace (Nat.ltb (length (inserts t')) 1) with true by (symmetry; apply Nat.ltb_lt; lia).
    reflexivity.
  - intros t' tb rows H. simpl in H. unfold insert_fails_from.
    replace (Nat.ltb (length (inserts t')) 1) with false by (symmetry; apply Nat.ltb_ge; lia).
    reflexivity.
Defined.

(** ** Termination of [store] *)

(** C10: with a positive batch size (100 when omitted) [store] returns
    within [length data] loop iterations, whatever its collaborators
    answer; with [batchSize = 0] and at least one document, a provider
    that answers and inserts that succeed, the loop index stays at [0]: it
    never returns, inserting the empty batch at every iteration. *)
Theorem store_termination :
  (forall (createEmbedding : trace -> jsval -> err + list jsval) (uuid : nat -> string)
          (insert : trace -> string -> list obj -> err + option string)
          (c : EmbeddingsClient) (data : list obj) (options : option StoreOptions) (t : trace),
     (1 <= store_batchSize options)%Z ->
     exists fuel, fst (store createEmbedding uuid insert fuel c data options t) <> inr OutOfFuel) /\
  (forall (createEmbedding : trace -> jsval -> err + list jsval) (uuid : nat -> string)
          (insert : trace -> string -> list obj -> err + option string)
          (c : EmbeddingsClient) (data : list obj) (options : option StoreOptions) (t : trace),
     store_batchSize options = 0%Z -> data <> [] ->
     truthy_str (resolve_store_table c options) = true ->
     (forall t' x, exists v, createEmbedding t' x = inr v) ->
     (forall t' tb rows, insert t' tb rows = inr None) ->
     forall fuel, exists t1,
       store createEmbedding uuid insert fuel c data options t
       = (inr OutOfFuel, t1 ++ repeat (EvInsert (resolve_store_table c options) []) fuel)).
Proof.
  split.
  - intros createEmbedding uuid insert c data options t Hb. exists (length data).
    destruct (truthy_str (resolve_store_table c options)) eqn:Htable.
    + rewrite store_unfold by exact Htable.
      destruct (process_items createEmbedding uuid (store_generateIds options) data t)
        as [[e|records] t1] eqn:E; [discriminate|].
      rewrite store_loop_chunks.
      * apply run_batches_returns.
      * exact Hb.
      * rewrite (process_items_length _ _ _ _ _ _ _ E). lia.
    + unfold store. rewrite Htable. discriminate.
  - intros createEmbedding uuid insert c data options t Hb Hne Htable Hprov Hok fuel.
    destruct (process_items_ok createEmbedding uuid Hprov (store_generateIds options) data t)
      as (records & t1 & E & L & _).
    exists t1. rewrite store_unfold, E by exact Htable. rewrite Hb.
    apply insert_loop_zero; auto.
    intros ->. destruct data; [congruence|discriminate].
Qed.

Lemma store_termination_witness :
  (exists fuel, fst (store provider_ok uuid_mock insert_ok fuel client_default docs_abc None [])
                <> inr OutOfFuel) /\
  (exists t1,
     store provider_ok uuid_mock insert_ok 5 client_default docs_abc
           (Some (store_options None None (Some 0%Z))) []
     = (inr OutOfFuel, t1 ++ repeat (EvInsert "documents" []) 5)).
Proof.
  split.
  - apply (proj1 store_termination provider_ok uuid_mock insert_ok client_default docs_abc None []).
    unfold store_batchSize. simpl. lia.
  - apply (proj2 store_termination provider_ok uuid_mock insert_ok client_default docs_abc
             (Some (store_options None None (Some 0%Z))) []).
    + reflexivity.
    + discriminate.
    + reflexivity.
    + intros t' x. eexists. reflexivity.
    + intros t' tb rows. reflexivity.
Defined.

(** ** Error kinds *)

Lemma search_unfold createEmbedding rpc c query options t queryEmbedding :
  truthy_str (resolve_search_table c options) = true ->
  createEmbedding t (JStr query) = inr queryEmbedding ->
  search createEmbedding rpc c query options t
  = match rpc (t ++ [EvEmbed (JStr query)]) (search_rpc_name options)
              (rpc_params c (resolve_search_table c options) queryEmbedding options) with
    | inl e => search_handler e (t ++ [EvEmbed (JStr query)] ++
                 [EvRpc (search_rpc_name options)
                        (rpc_params c (resolve_search_table c options) queryEmbedding options)])
    | inr (data, Some m) =>
        search_handler (DatabaseError ("Search failed: " ++ m))
          (t ++ [EvEmbed (JStr query)] ++
           [EvRpc (search_rpc_name options)
                  (rpc_params c (resolve_search_table c options) queryEmbedding options)])
    | inr (data, None) =>
        (inr (postprocess options data),
         t ++ [EvEmbed (JStr query)] ++
         [EvRpc (search_rpc_name options)
                (rpc_params c (resolve_search_table c options) queryEmbedding options)])
    end.
Proof.
  intros Ht He. unfold search. cbv zeta. rewrite Ht. cbn [negb].
  unfold bind at 1, create. cbv beta iota. rewrite He. cbv iota.
  unfold try_catch, bind, call_rpc. cbv beta.
  destruct (rpc _ _ _) as [e|[data [m|]]]; rewrite <- ?app_assoc; reflexivity.
Qed.

(** C7: the failure kinds of [store] and [search] carry distinct message
    prefixes: an insert reporting an error fails [store] with
    ["Failed to store embeddings: "]; in [search] an error field of the
    [rpc] answer gives ["Search failed: "], a non-[DatabaseError] thrown by
    the call gives ["Search operation failed: "], and a [DatabaseError]
    thrown by it is rethrown unchanged. *)
Theorem error_prefixes :
  (forall (insert : trace -> string -> list obj -> err + option string)
          (fuel : nat) (table : string) (batchSize : Z) (records : list obj) (i : Z)
          (t : trace) (m : string),
     (i < Z.of_nat (length records))%Z ->
     insert t table (js_slice records i (i + batchSize)) = inr (Some m) ->
     fst (insert_loop insert (S fuel) table batchSize records i t)
     = inl (DatabaseError ("Failed to store embeddings: " ++ m))) /\
  (forall (createEmbedding : trace -> jsval -> err + list jsval)
          (rpc : trace -> string -> obj -> err + (option (list obj) * option string))
          (c : EmbeddingsClient) (query : string) (options : option SearchOptions)
          (t : trace) (queryEmbedding : list jsval),
     truthy_str (resolve_search_table c options) = true ->
     createEmbedding t (JStr query) = inr queryEmbedding ->
     (forall data m,
        rpc (t ++ [EvEmbed (JStr query)]) (search_rpc_name options)
            (rpc_params c (resolve_search_table c options) queryEmbedding options)
        = inr (data, Some m) ->
        fst (search createEmbedding rpc c query options t)
        = inl (DatabaseError ("Search failed: " ++ m))) /\
     (forall e,
        rpc (t ++ [EvEmbed (JStr query)]) (search_rpc_name options)
            (rpc_params c (resolve_search_table c options) queryEmbedding options) = inl e ->
        is_DatabaseError e = false ->
        fst (search createEmbedding rpc c query options t)
        = inl (DatabaseError ("Search operation failed: " ++ err_message e))) /\
     (forall m,
        rpc (t ++ [EvEmbed (JStr query)]) (search_rpc_name options)
            (rpc_params c (resolve_search_table c options) queryEmbedding options)
        = inl (DatabaseError m) ->
        fst (search createEmbedding rpc c query options t) = inl (DatabaseError m))).
Proof.
  split.
  - intros insert fuel table batchSize records i t m Hi Hm.
    cbn [insert_loop]. replace (i <? Z.of_nat (length records))%Z with true
      by (symmetry; apply Z.ltb_lt; exact Hi).
    unfold bind, call_insert. rewrite Hm. reflexivity.
  - intros createEmbedding rpc c query options t queryEmbedding Ht He.
    repeat split.
    + intros data m Hr. rewrite search_unfold with (queryEmbedding := queryEmbedding) by assumption.
      rewrite Hr. reflexivity.
    + intros e Hr Hn. rewrite search_unfold with (queryEmbedding := queryEmbedding) by assumption.
      rewrite Hr. unfold search_handler. rewrite Hn. reflexivity.
    + intros m Hr. rewrite search_unfold with (queryEmbedding := queryEmbedding) by assumption.
      rewrite Hr. reflexivity.
Qed.

Lemma error_prefixes_witness :
  fst (search provider_ok rpc_throws client_default "q" None [])
  = inl (DatabaseError ("Search operation failed: " ++ "fetch failed")).
Proof.
  apply (proj1 (proj2 (proj2 error_prefixes provider_ok rpc_throws client_default "q" None []
                         [JArr [JNum 0.1%float; JNum 0.2%float; JNum 0.3%float]]
                         eq_refl eq_refl)) (JsError "fetch failed") eq_refl eq_refl).
Defined.

(** ** Ordering of search results *)

Lemma apply_orderBy_similarity (results : list obj) :
  apply_orderBy (Some (search_options (Some "similarity"))) results = results /\
  apply_orderBy (Some (search_options None)) results = results /\
  apply_orderBy None results = results.
Proof. repeat split. Qed.

(** C6 (code bug): the comparator [aVal > bVal ? 1 : -1] never answers [0],
    so rows with equal [created_at] are not kept in their remote order: on
    Node's sort the two tied rows come back swapped. Without [orderBy], or
    with [orderBy: 'similarity'], the rows are left in remote order. *)
Theorem search_orderBy_ties_swapped :
  fst (search provider_ok (rpc_rows rows_tied) client_default "q"
              (Some (search_options (Some "created_at"))) [])
  = inr [[("id", JStr "b"); ("created_at", JNum 1%float)];
         [("id", JStr "a"); ("created_at", JNum 1%float)]] /\
  fst (search provider_ok (rpc_rows rows_tied) client_default "q"
              (Some (search_options (Some "similarity"))) []) = inr rows_tied /\
  orderBy_cmp "created_at" (nth 0 rows_tied []) (nth 1 rows_tied []) = (-1)%Z /\
  orderBy_cmp "created_at" (nth 1 rows_tied []) (nth 0 rows_tied []) = (-1)%Z.
Proof. vm_compute. repeat split. Qed.

(** ** Cosine similarity *)

Lemma cos_loop_split (a b : list float) (d na nb : float) :
  length a = length b ->
  cos_loop a b d na nb = (dot_loop a b d, sum_squares a na, sum_squares b nb).
Proof.
  revert b d na nb. induction a as [|x a IH]; intros b d na nb Hl.
  - destruct b; [reflexivity|discriminate].
  - destruct b as [|y b]; [discriminate|]. simpl. apply IH. simpl in Hl. lia.
Qed.

Lemma zero_step : (0 + 0 * 0)%float = 0%float.
Proof. reflexivity. Qed.

Lemma dot_loop_zero (n : nat) : dot_loop (repeat 0%float n) (repeat 0%float n) 0%float = 0%float.
Proof. induction n as [|n IH]; [reflexivity|]. cbn [dot_loop sum_squares repeat hd tl]. rewrite zero_step. exact IH. Qed.

Lemma sum_squares_zero (n : nat) : sum_squares (repeat 0%float n) 0%float = 0%float.
Proof. induction n as [|n IH]; [reflexivity|]. cbn [dot_loop sum_squares repeat hd tl]. rewrite zero_step. exact IH. Qed.

(** C8: vectors of different lengths are rejected; on equal lengths
    [cosineSimilarity(a, b)] is [dotProduct(a, b) / (magnitude(a) *
    magnitude(b))], each sum accumulated from [0] in index order, with no
    case for zero vectors: two zero vectors give [NaN]. *)
Theorem cosineSimilarity_formula :
  (forall a b, length a <> length b ->
     cosineSimilarity a b = inl (JsError "Vectors must have the same length")) /\
  (forall a b, length a = length b ->
     dotProduct a b = inr (dot_loop a b 0%float) /\
     cosineSimilarity a b = inr (dot_loop a b 0%float / (magnitude a * magnitude b))%float) /\
  (forall n, exists r, cosineSimilarity (repeat 0%float n) (repeat 0%float n) = inr r /\
                       PrimFloat.is_nan r = true).
Proof.
  split; [|split].
  - intros a b Hl. unfold cosineSimilarity.
    replace (Nat.eqb (length a) (length b)) with false by (symmetry; apply Nat.eqb_neq; exact Hl).
    reflexivity.
  - intros a b Hl. unfold cosineSimilarity, dotProduct.
    rewrite Hl, Nat.eqb_refl. simpl negb. cbv iota.
    rewrite cos_loop_split by exact Hl. split; reflexivity.
  - intros n. unfold cosineSimilarity. rewrite repeat_length, Nat.eqb_refl. simpl negb.
    rewrite cos_loop_split by reflexivity. rewrite dot_loop_zero, sum_squares_zero.
    eexists. split; [reflexivity|]. reflexivity.
Qed.

Lemma cosineSimilarity_formula_witness :
  cosineSimilarity [1; 2]%float [3; 4]%float
  = inr (dot_loop [1; 2]%float [3; 4]%float 0%float
         / (magnitude [1; 2]%float * magnitude [3; 4]%float))%float.
Proof. exact (proj2 (proj1 (proj2 cosineSimilarity_formula) [1; 2]%float [3; 4]%float eq_refl)). Defined.

(** ** Text chunking *)

Lemma str_app_assoc (a b c : string) : ((a ++ b) ++ c)%string = (a ++ (b ++ c))%string.
Proof. induction a as [|x a IH]; simpl; [reflexivity|]. now rewrite IH. Qed.

Lemma str_app_nil_r (a : string) : (a ++ "")%string = a.
Proof. induction a as [|x a IH]; simpl; [reflexivity|]. now rewrite IH. Qed.

Lemma split_char_acc_nonnil sep cur s : split_char_acc sep cur s <> [].
Proof.
  revert cur. induction s as [|c s IH]; intros cur; simpl; [discriminate|].
  destruct (Ascii.eqb c sep); [discriminate|apply IH].
Qed.

Lemma join_cons sep x xs : xs <> [] -> join sep (x :: xs) = (x ++ sep ++ join sep xs)%string.
Proof. destruct xs; [congruence|reflexivity]. Qed.

(** Joining the pieces of a split gives the string back. *)
Lemma join_split_acc sep cur s :
  join (String sep EmptyString) (split_char_acc sep cur s) = (cur ++ s)%string.
Proof.
  revert cur. induction s as [|c s IH]; intros cur; simpl.
  - now rewrite str_app_nil_r.
  - destruct (Ascii.eqb_spec c sep) as [->|Hne].
    + rewrite join_cons by apply split_char_acc_nonnil. rewrite IH. reflexivity.
    + rewrite IH, str_app_assoc. reflexivity.
Qed.

Lemma join_split sep s : join (String sep EmptyString) (split_char sep s) = s.
Proof. apply join_split_acc. Qed.

Lemma split_char_length sep s : 1 <= length (split_char sep s).
Proof.
  pose proof (split_char_acc_nonnil sep "" s) as H. unfold split_char.
  destruct (split_char_acc sep "" s); [congruence|simpl; lia].
Qed.

Lemma join_app sep l1 l2 :
  l1 <> [] -> l2 <> [] -> join sep (l1 ++ l2) = (join sep l1 ++ sep ++ join sep l2)%string.
Proof.
  intros H1 H2. induction l1 as [|x l1 IH]; [congruence|].
  destruct l1 as [|y l1].
  - change ([x] ++ l2) with (x :: l2). rewrite join_cons by exact H2. reflexivity.
  - change ((x :: y :: l1) ++ l2) with (x :: ((y :: l1) ++ l2)).
    rewrite join_cons by discriminate. rewrite IH by discriminate.
    rewrite (join_cons sep x (y :: l1)) by discriminate.
    rewrite !str_app_assoc. reflexivity.
Qed.

Lemma firstn_skipn_nonnil {A} (n : nat) (l : list A) :
  1 <= n -> l <> [] -> firstn n l <> [].
Proof. intros Hn Hl. destruct n; [lia|]. destruct l; [congruence|discriminate]. Qed.

Lemma chunk_loop_join (words : list string) (c : Z) :
  (1 <= c)%Z ->
  forall fuel m, m < length words -> length words - m <= fuel ->
  exists chunks, chunk_loop fuel words c 0 (Z.of_nat m) = (chunks, Done) /\ chunks <> [] /\
                 join " " chunks = join " " (skipn m words).
Proof.
  intros Hc fuel. induction fuel as [|fuel IH]; intros m Hm Hf; [lia|].
  cbn [chunk_loop].
  replace (Z.of_nat m <? Z.of_nat (length words))%Z with true by (symmetry; apply Z.ltb_lt; lia).
  replace (Z.of_nat m + c)%Z with (Z.of_nat m + Z.of_nat (Z.to_nat c))%Z by lia.
  rewrite js_slice_nat by exact Hm.
  destruct (Z.of_nat (length words) <=? Z.of_nat m + Z.of_nat (Z.to_nat c))%Z eqn:Hend.
  - apply Z.leb_le in Hend. eexists. split; [reflexivity|]. split; [discriminate|].
    simpl. rewrite firstn_all2; [reflexivity|]. rewrite length_skipn. lia.
  - apply Z.leb_gt in Hend.
    destruct (IH (m + Z.to_nat c)) as (rest & E & Hne & J); [lia|lia|].
    replace (Z.of_nat m + (c - 0))%Z with (Z.of_nat (m + Z.to_nat c)) by lia.
    rewrite E. eexists. split; [reflexivity|]. split; [discriminate|].
    rewrite join_cons by exact Hne. rewrite J.
    rewrite <- (firstn_skipn (Z.to_nat c) (skipn m words)) at 2.
    rewrite join_app.
    + now rewrite skipn_skipn, Nat.add_comm.
    + apply firstn_skipn_nonnil; [lia|]. intros H.
      apply (f_equal (@length _)) in H. rewrite length_skipn in H. simpl in H. lia.
    + intros H. apply (f_equal (@length _)) in H. rewrite !length_skipn in H. simpl in H. lia.
Qed.

Lemma chunk_loop_windows (words : list string) (c o : Z) :
  (0 <= o < c)%Z ->
  forall fuel m, m < length words -> length words - m <= fuel ->
  exists chunks, chunk_loop fuel words c o (Z.of_nat m) = (chunks, Done) /\ chunks <> [] /\
    (forall k, k < length chunks ->
       nth k chunks "" = join " " (firstn (Z.to_nat c) (skipn (m + k * Z.to_nat (c - o)) words))) /\
    length words <= m + (length chunks - 1) * Z.to_nat (c - o) + Z.to_nat c /\
    (forall k, k + 1 < length chunks -> m + k * Z.to_nat (c - o) + Z.to_nat c < length words).
Proof.
  intros Ho fuel. induction fuel as [|fuel IH]; intros m Hm Hf; [lia|].
  cbn [chunk_loop].
  replace (Z.of_nat m <? Z.of_nat (length words))%Z with true by (symmetry; apply Z.ltb_lt; lia).
  replace (Z.of_nat m + c)%Z with (Z.of_nat m + Z.of_nat (Z.to_nat c))%Z by lia.
  rewrite js_slice_nat by exact Hm.
  destruct (Z.of_nat (length words) <=? Z.of_nat m + Z.of_nat (Z.to_nat c))%Z eqn:Hend.
  - apply Z.leb_le in Hend. eexists. split; [reflexivity|]. split; [discriminate|].
    simpl. split; [|split; [lia|intros; lia]].
    intros k Hk. destruct k; [|lia]. simpl. now rewrite Nat.add_0_r.
  - apply Z.leb_gt in Hend.
    destruct (IH (m + Z.to_nat (c - o))) as (rest & E & Hne & Hnth & Hlast & Hmid); [lia|lia|].
    replace (Z.of_nat m + (c - o))%Z with (Z.of_nat (m + Z.to_nat (c - o))) by lia.
    rewrite E. eexists. split; [reflexivity|]. split; [discriminate|].
    destruct rest as [|r rest]; [congruence|].
    split; [|split].
    + intros [|k] Hk.
      * simpl. now rewrite Nat.add_0_r.
      * cbn [length] in Hk. change (nth (S k) (_ :: r :: rest) "") with (nth k (r :: rest) "").
        rewrite (Hnth k) by (cbn [length]; lia).
        f_equal. f_equal. f_equal. lia.
    + simpl in Hlast |- *. nia.
    + intros [|k] Hk.
      * simpl. lia.
      * simpl in Hk. specialize (Hmid k ltac:(simpl; lia)). simpl. nia.
Qed.

Lemma chunk_loop_stuck (words : list string) (c o : Z) :
  1 <= length words -> (c <= o)%Z -> (c < Z.of_nat (length words))%Z ->
  forall fuel i, (i <= 0)%Z -> snd (chunk_loop fuel words c o i) = OutOfFuel.
Proof.
  intros H1 Hco Hn fuel. induction fuel as [|fuel IH]; intros i Hi; cbn [chunk_loop].
  - replace (i <? Z.of_nat (length words))%Z with true by (symmetry; apply Z.ltb_lt; lia).
    reflexivity.
  - replace (i <? Z.of_nat (length words))%Z with true by (symmetry; apply Z.ltb_lt; lia).
    replace (Z.of_nat (length words) <=? i + c)%Z with false by (symmetry; apply Z.leb_gt; lia).
    specialize (IH (i + (c - o))%Z ltac:(lia)).
    destruct (chunk_loop fuel words c o (i + (c - o))) as [chunks out]. exact IH.
Qed.

(** [chunkText] without overlap (the default) and with a positive
    [chunkSize] partitions the words: joining its chunks with a space gives
    the text back. *)
Theorem chunkText_join (text : string) (chunkSize : Z) (fuel : nat) :
  (1 <= chunkSize)%Z -> length (split_char " "%char text) <= fuel ->
  exists chunks, chunkText fuel text chunkSize 0 = (chunks, Done) /\ join " " chunks = text.
Proof.
  intros Hc Hf. unfold chunkText.
  destruct (chunk_loop_join (split_char " "%char text) chunkSize Hc fuel 0) as (chunks & E & _ & J).
  - pose proof (split_char_length " "%char text). lia.
  - lia.
  - exists chunks. split; [exact E|]. rewrite J. apply join_split.
Qed.

Lemma chunkText_join_witness :
  (1 <= 2)%Z /\ length (split_char " "%char "a b c") <= 3 /\
  exists chunks, chunkText 3 "a b c" 2 0 = (chunks, Done) /\ join " " chunks = "a b c".
Proof.
  split; [lia|]. split; [simpl; lia|].
  apply chunkText_join; [lia|simpl; lia].
Defined.

(** With [0 <= overlap < chunkSize], [chunkText] returns a non-empty list
    of windows over the words of the text: the [k]-th chunk joins the (at
    most [chunkSize]) words starting at word [k * (chunkSize - overlap)],
    the last chunk reaches the last word, and every earlier one ends
    before it. *)
Theorem chunkText_windows (text : string) (chunkSize overlap : Z) (fuel : nat) :
  (0 <= overlap < chunkSize)%Z -> length (split_char " "%char text) <= fuel ->
  exists chunks, chunkText fuel text chunkSize overlap = (chunks, Done) /\ chunks <> [] /\
    (forall k, k < length chunks ->
       nth k chunks "" = join " " (firstn (Z.to_nat chunkSize)
                                   (skipn (k * Z.to_nat (chunkSize - overlap))
                                          (split_char " "%char text)))) /\
    length (split_char " "%char text)
      <= (length chunks - 1) * Z.to_nat (chunkSize - overlap) + Z.to_nat chunkSize /\
    (forall k, k + 1 < length chunks ->
       k * Z.to_nat (chunkSize - overlap) + Z.to_nat chunkSize < length (split_char " "%char text)).
Proof.
  intros Ho Hf. unfold chunkText.
  destruct (chunk_loop_windows (split_char " "%char text) chunkSize overlap Ho fuel 0)
    as (chunks & E & Hne & Hnth & Hlast & Hmid).
  - pose proof (split_char_length " "%char text). lia.
  - lia.
  - exists chunks. repeat split; auto.
Qed.

Lemma chunkText_windows_witness :
  (0 <= 1 < 3)%Z /\ length (split_char " "%char "a b c d e") <= 5 /\
  chunkText 5 "a b c d e" 3 1 = (["a b c"; "c d e"], Done).
Proof.
  split; [lia|]. split; [simpl; lia|].
  destruct (chunkText_windows "a b c d e" 3 1 5 ltac:(lia) ltac:(simpl; lia))
    as (chunks & E & _). rewrite E. vm_compute in E. symmetry. exact E.
Defined.

(** A text of at most [chunkSize] words is a single chunk, the text
    itself, whatever the overlap. *)
Theorem chunkText_single (text : string) (chunkSize overlap : Z) (fuel : nat) :
  (Z.of_nat (length (split_char " "%char text)) <= chunkSize)%Z -> 1 <= fuel ->
  chunkText fuel text chunkSize overlap = ([text], Done).
Proof.
  intros Hn Hf. unfold chunkText. destruct fuel as [|fuel]; [lia|].
  pose proof (split_char_length " "%char text) as H1.
  cbn [chunk_loop].
  replace (0 <? Z.of_nat (length (split_char " "%char text)))%Z with true
    by (symmetry; apply Z.ltb_lt; lia).
  replace (Z.of_nat (length (split_char " "%char text)) <=? 0 + chunkSize)%Z with true
    by (symmetry; apply Z.leb_le; lia).
  unfold js_slice. cbn [Z.ltb Z.compare]. simpl (0 + chunkSize)%Z.
  replace (chunkSize <? 0)%Z with false by (symmetry; apply Z.ltb_ge; lia).
  replace (Z.min 0 (Z.of_nat (length (split_char " "%char text)))) with 0%Z by lia.
  rewrite skipn_O, firstn_all2 by lia.
  rewrite join_split. reflexivity.
Qed.

Lemma chunkText_single_witness :
  (Z.of_nat (length (split_char " "%char "hello world")) <= 5)%Z /\ 1 <= 1 /\
  chunkText 1 "hello world" 5 7 = (["hello world"], Done).
Proof.
  split; [simpl; lia|]. split; [lia|].
  apply chunkText_single; [simpl; lia|lia].
Defined.

(** An [overlap] of at least [chunkSize] on a text of more than
    [chunkSize] words never ends: the loop index does not advance. *)
Theorem chunkText_diverges (text : string) (chunkSize overlap : Z) :
  (chunkSize <= overlap)%Z -> (chunkSize < Z.of_nat (length (split_char " "%char text)))%Z ->
  forall fuel, snd (chunkText fuel text chunkSize overlap) = OutOfFuel.
Proof.
  intros Hco Hn fuel. unfold chunkText. apply chunk_loop_stuck; auto.
  - apply split_char_length.
  - lia.
Qed.

Lemma chunkText_diverges_witness :
  (2 <= 2)%Z /\ (2 < Z.of_nat (length (split_char " "%char "a b c")))%Z /\
  snd (chunkText 100 "a b c" 2 2) = OutOfFuel.
Proof.
  split; [lia|]. split; [simpl; lia|].
  apply chunkText_diverges; [lia|simpl; lia].
Defined.

(** ** Filters *)

Lemma fold_set_map (key : string) (l : obj) (q : obj) :
  fold_left (fun q ov => set q (key ++ "." ++ fst ov)%string (snd ov)) l q
  = fold_left (fun q kv => set q (fst kv) (snd kv))
              (map (fun ov => ((key ++ "." ++ fst ov)%string, snd ov)) l) q.
Proof. revert q. induction l as [|ov l IH]; intros q; simpl; auto. Qed.

Lemma buildFilters_assignments (filters : obj) :
  buildFilters filters
  = fold_left (fun q kv => set q (fst kv) (snd kv)) (filter_assignments filters) [].
Proof.
  unfold buildFilters, filter_assignments.
  assert (G : forall acc : obj,
    fold_left (fun query kv =>
               let '(key, value) := kv in
               if is_object value then
                 fold_left (fun q ov => set q (key ++ "." ++ fst ov)%string (snd ov)) (entries value) query
               else set query (key ++ ".eq")%string value) filters acc
    = fold_left (fun q kv => set q (fst kv) (snd kv))
        (flat_map (fun kv =>
              let '(key, value) := kv in
              if is_object value then map (fun ov => ((key ++ "." ++ fst ov)%string, snd ov)) (entries value)
              else [((key ++ ".eq")%string, value)]) filters) acc).
  { induction filters as [|[k v] filters IH]; intros acc; simpl; auto.
    rewrite fold_left_app. destruct (is_object v); [rewrite fold_set_map|]; apply IH. }
  apply G.
Qed.

Lemma has_In (l : obj) x : has l x = true <-> In x (map fst l).
Proof.
  induction l as [|[k v] l IH]; simpl; [split; [discriminate|contradiction]|].
  rewrite orb_true_iff, IH, String.eqb_eq. split; intros [H|H]; auto.
Qed.

Lemma has_app (l1 l2 : obj) x : has (l1 ++ l2) x = (has l1 x || has l2 x)%bool.
Proof. induction l1 as [|[k v] l1 IH]; simpl; auto. rewrite IH. apply orb_assoc. Qed.

Lemma get_app (l1 l2 : obj) x : get (l1 ++ l2) x = if has l1 x then get l1 x else get l2 x.
Proof. induction l1 as [|[k v] l1 IH]; simpl; auto. destruct (String.eqb x k); simpl; auto. Qed.

Lemma has_fold_set (l acc : obj) x :
  has (fold_left (fun q kv => set q (fst kv) (snd kv)) l acc) x = (has acc x || has l x)%bool.
Proof.
  revert acc. induction l as [|[k v] l IH]; intros acc; simpl.
  - now rewrite orb_false_r.
  - rewrite IH, has_set. destruct (String.eqb x k), (has acc x), (has l x); reflexivity.
Qed.

Lemma get_fold_set (l acc : obj) x :
  NoDup (map fst l) ->
  get (fold_left (fun q kv => set q (fst kv) (snd kv)) l acc) x
  = if has l x then get l x else get acc x.
Proof.
  revert acc. induction l as [|[k v] l IH]; intros acc Hnd; simpl; auto.
  inversion Hnd as [|? ? Hnin Hnd']; subst. rewrite IH by exact Hnd'.
  destruct (String.eqb x k) eqn:Exk; simpl.
  - apply String.eqb_eq in Exk; subst x.
    destruct (has l k) eqn:E; [apply has_In in E; contradiction|].
    apply get_set_same.
  - destruct (has l x); auto. apply get_set_other. apply String.eqb_neq. exact Exk.
Qed.

Lemma dot_char_no_dot s : no_dot (String "."%char s) = false.
Proof. reflexivity. Qed.

Lemma dot_inj k1 k2 o1 o2 :
  no_dot k1 = true -> no_dot k2 = true ->
  (k1 ++ "." ++ o1)%string = (k2 ++ "." ++ o2)%string -> k1 = k2 /\ o1 = o2.
Proof.
  revert k2. induction k1 as [|c k1 IH]; intros k2 H1 H2 E; destruct k2 as [|c' k2].
  - simpl in E. injection E as ->. auto.
  - simpl in E. injection E as Ec _. subst c'. rewrite dot_char_no_dot in H2. discriminate.
  - simpl in E. injection E as Ec _. subst c. rewrite dot_char_no_dot in H1. discriminate.
  - simpl in E. injection E as <- E. simpl in H1, H2.
    apply andb_prop in H1 as [_ H1]. apply andb_prop in H2 as [_ H2].
    destruct (IH k2 H1 H2 E) as [-> ->]. auto.
Qed.

Lemma app_dot_cancel key o1 o2 :
  (key ++ "." ++ o1)%string = (key ++ "." ++ o2)%string -> o1 = o2.
Proof.
  induction key as [|c key IH]; simpl; intros E.
  - now injection E.
  - injection E as E. auto.
Qed.

Lemma eqb_prefix key a b :
  String.eqb (key ++ "." ++ a) (key ++ "." ++ b) = String.eqb a b.
Proof.
  destruct (String.eqb_spec a b) as [->|Hne]; [apply String.eqb_refl|].
  apply String.eqb_neq. intros E. apply Hne. eapply app_dot_cancel. exact E.
Qed.

Lemma eqb_prefix_other key k a b :
  no_dot key = true -> no_dot k = true -> key <> k ->
  String.eqb (key ++ "." ++ a) (k ++ "." ++ b) = false.
Proof.
  intros H1 H2 Hne. apply String.eqb_neq. intros E.
  apply (dot_inj _ _ _ _ H1 H2) in E as [E _]. contradiction.
Qed.

Lemma eq_key k : (k ++ ".eq")%string = (k ++ "." ++ "eq")%string.
Proof. reflexivity. Qed.

Lemma has_map_prefix k (l : obj) x :
  has (map (fun ov => ((k ++ "." ++ fst ov)%string, snd ov)) l) x = true ->
  exists o, x = (k ++ "." ++ o)%string /\ has l o = true.
Proof.
  induction l as [|[o v] l IH]; cbn [has map fst snd]; [discriminate|].
  intros H. apply orb_true_iff in H as [H|H].
  - apply String.eqb_eq in H. exists o. split; auto. cbn [has]. now rewrite String.eqb_refl.
  - destruct (IH H) as (o' & -> & Ho'). exists o'. split; auto. now rewrite Ho', orb_true_r.
Qed.

Lemma has_map_prefix_same k (l : obj) op :
  has (map (fun ov => ((k ++ "." ++ fst ov)%string, snd ov)) l) (k ++ "." ++ op) = has l op.
Proof.
  induction l as [|[o v] l IH]; cbn [has get map fst snd]; auto. now rewrite eqb_prefix, IH.
Qed.

Lemma get_map_prefix_same k (l : obj) op :
  get (map (fun ov => ((k ++ "." ++ fst ov)%string, snd ov)) l) (k ++ "." ++ op) = get l op.
Proof.
  induction l as [|[o v] l IH]; cbn [has get map fst snd]; auto. now rewrite eqb_prefix, IH.
Qed.

Lemma has_map_prefix_other key k (l : obj) op :
  no_dot key = true -> no_dot k = true -> key <> k ->
  has (map (fun ov => ((k ++ "." ++ fst ov)%string, snd ov)) l) (key ++ "." ++ op) = false.
Proof.
  intros H1 H2 Hne. induction l as [|[o v] l IH]; cbn [has map fst snd]; auto.
  now rewrite eqb_prefix_other, IH.
Qed.

Lemma assignments_has_other (filters : obj) key op :
  no_dot key = true -> has filters key = false ->
  (forall k v, In (k, v) filters -> no_dot k = true) ->
  has (filter_assignments filters) (key ++ "." ++ op) = false.
Proof.
  intros Hkey. induction filters as [|[k v] filters IH]; intros Hhas Hall; [reflexivity|].
  simpl in Hhas. apply orb_false_iff in Hhas as [Hk Hhas].
  apply String.eqb_neq in Hk.
  assert (Hdk : no_dot k = true) by (apply (Hall k v); left; reflexivity).
  unfold filter_assignments. cbn [flat_map]. rewrite has_app.
  apply orb_false_iff. split.
  - destruct (is_object v).
    + apply has_map_prefix_other; auto.
    + cbn [has]. now rewrite eq_key, eqb_prefix_other.
  - apply IH; auto. intros k' v' Hin. apply (Hall k' v'). right. exact Hin.
Qed.

Lemma NoDup_map_prefix k (l : list string) :
  NoDup l -> NoDup (map (fun o => (k ++ "." ++ o)%string) l).
Proof.
  induction 1 as [|a l Hnin Hnd IH]; simpl; constructor; auto.
  intros Hin. apply in_map_iff in Hin as (b & Eb & Hb).
  apply app_dot_cancel in Eb. subst b. contradiction.
Qed.

Lemma map_fst_prefix k (l : obj) :
  map fst (map (fun ov => ((k ++ "." ++ fst ov)%string, snd ov)) l)
  = map (fun o => (k ++ "." ++ o)%string) (map fst l).
Proof. induction l as [|[o v] l IH]; cbn [map fst]; [reflexivity|]. now rewrite IH. Qed.

Lemma assignments_NoDup (filters : obj) :
  NoDup (map fst filters) ->
  (forall k v, In (k, v) filters -> no_dot k = true /\ NoDup (map fst (entries v))) ->
  NoDup (map fst (filter_assignments filters)).
Proof.
  induction filters as [|[k v] filters IH]; intros Hnd Hall; [constructor|].
  inversion Hnd as [|? ? Hnin Hnd']; subst.
  destruct (Hall k v (or_introl eq_refl)) as [Hdk Hndv].
  assert (Hall' : forall k' v', In (k', v') filters -> no_dot k' = true /\ NoDup (map fst (entries v')))
    by (intros k' v' Hin; apply Hall; right; exact Hin).
  unfold filter_assignments. cbn [flat_map]. rewrite map_app.
  fold (filter_assignments filters).
  assert (Hother : forall op, has (filter_assignments filters) (k ++ "." ++ op) = false).
  { intros op. apply assignments_has_other; auto.
    - destruct (has filters k) eqn:E; auto. apply has_In in E. contradiction.
    - intros k' v' Hin. apply (Hall' k' v' Hin). }
  apply NoDup_app.
  - destruct (is_object v).
    + rewrite map_fst_prefix. apply NoDup_map_prefix. exact Hndv.
    + simpl. constructor; [intros []|constructor].
  - apply IH; auto.
  - intros a Ha Hb. apply has_In in Hb.
    destruct (is_object v).
    + rewrite map_fst_prefix in Ha. apply in_map_iff in Ha as (o & <- & _).
      rewrite Hother in Hb. discriminate.
    + simpl in Ha. destruct Ha as [<-|[]]. rewrite eq_key, Hother in Hb. discriminate.
Qed.

Lemma assignments_get (filters : obj) key op :
  NoDup (map fst filters) ->
  (forall k v, In (k, v) filters -> no_dot k = true /\ NoDup (map fst (entries v))) ->
  no_dot key = true ->
  get (filter_assignments filters) (key ++ "." ++ op)
  = if is_object (get filters key) then get (entries (get filters key)) op
    else if String.eqb op "eq" then get filters key else JUndef.
Proof.
  intros Hnd Hall Hkey. induction filters as [|[k v] filters IH];
    [cbn [get is_object]; destruct (String.eqb op "eq"); reflexivity|].
  inversion Hnd as [|? ? Hnin Hnd']; subst.
  destruct (Hall k v (or_introl eq_refl)) as [Hdk Hndv].
  assert (Hall' : forall k' v', In (k', v') filters -> no_dot k' = true /\ NoDup (map fst (entries v')))
    by (intros k' v' Hin; apply Hall; right; exact Hin).
  unfold filter_assignments. cbn [flat_map]. rewrite get_app.
  fold (filter_assignments filters). cbn [get].
  destruct (String.eqb_spec key k) as [<-|Hne].
  - assert (Hother : get (filter_assignments filters) (key ++ "." ++ op) = JUndef).
    { apply get_undef_of_has, assignments_has_other; auto.
      - destruct (has filters key) eqn:E; auto. apply has_In in E. contradiction.
      - intros k' v' Hin. apply (Hall' k' v' Hin). }
    destruct (is_object v).
    + rewrite has_map_prefix_same, get_map_prefix_same.
      destruct (has (entries v) op) eqn:E; auto.
      rewrite Hother. symmetry. apply get_undef_of_has. exact E.
    + cbn [has get]. rewrite eq_key, !eqb_prefix. destruct (String.eqb op "eq"); auto.
  - destruct (is_object v); cbv iota.
    + rewrite (has_map_prefix_other key k) by auto. apply IH; auto.
    + cbn [has]. rewrite eq_key, eqb_prefix_other by auto. apply IH; auto.
Qed.

Lemma buildFilters_get (filters : obj) key op :
  NoDup (map fst filters) ->
  (forall k v, In (k, v) filters -> no_dot k = true /\ NoDup (map fst (entries v))) ->
  no_dot key = true ->
  get (buildFilters filters) (key ++ "." ++ op)
  = if is_object (get filters key) then get (entries (get filters key)) op
    else if String.eqb op "eq" then get filters key else JUndef.
Proof.
  intros Hnd Hall Hkey. rewrite buildFilters_assignments.
  rewrite get_fold_set by (apply assignments_NoDup; auto).
  rewrite <- assignments_get by auto.
  destruct (has (filter_assignments filters) (key ++ "." ++ op)) eqn:E; auto.
  symmetry. apply get_undef_of_has. exact E.
Qed.

(** [buildFilters] turns [{ key: value }] into [{ "key.eq": value }] and
    [{ key: { op: operand, ... } }] into [{ "key.op": operand, ... }]: for
    filter keys without a dot and objects without repeated keys, looking
    up ["key.op"] in the result finds the operand of [op] under [key] when
    [key]'s value is an object (or an array), the value itself when it is
    a plain value and [op] is ["eq"], and nothing otherwise. *)
Theorem buildFilters_lookup (filters : obj) (key op : string) :
  NoDup (map fst filters) ->
  (forall k v, In (k, v) filters -> no_dot k = true /\ NoDup (map fst (entries v))) ->
  no_dot key = true ->
  get (buildFilters filters) (key ++ "." ++ op)
  = if is_object (get filters key) then get (entries (get filters key)) op
    else if String.eqb op "eq" then get filters key else JUndef.
Proof. apply buildFilters_get. Qed.

Lemma buildFilters_lookup_witness :
  get (buildFilters [("user_id", JStr "u1"); ("created_at", JObj [("gte", JStr "2024-01-01")])])
      ("created_at" ++ "." ++ "gte") = JStr "2024-01-01".
Proof.
  rewrite (buildFilters_lookup
             [("user_id", JStr "u1"); ("created_at", JObj [("gte", JStr "2024-01-01")])]
             "created_at" "gte").
  - reflexivity.
  - repeat constructor; simpl; intuition discriminate.
  - intros k v [E|[E|[]]]; injection E as <- <-; split; try reflexivity; repeat constructor; simpl; tauto.
  - reflexivity.
Defined.

(** Every property of the [buildFilters] result is ["key.op"] for a
    filter [key]: [op] is ["eq"] for a plain value and a property of the
    value (an index for an array) otherwise. *)
Theorem buildFilters_keys (filters : obj) (q : string) :
  has (buildFilters filters) q = true ->
  exists key value op, In (key, value) filters /\ q = (key ++ "." ++ op)%string /\
    (if is_object value then has (entries value) op = true else op = "eq").
Proof.
  rewrite buildFilters_assignments, has_fold_set. cbn [has orb].
  induction filters as [|[k v] filters IH]; [discriminate|].
  unfold filter_assignments. cbn [flat_map]. rewrite has_app.
  fold (filter_assignments filters). intros H. apply orb_true_iff in H as [H|H].
  - exists k, v. destruct (is_object v) eqn:Ev.
    + destruct (has_map_prefix _ _ _ H) as (o & -> & Ho). exists o. split; [left; reflexivity|]. auto.
    + simpl in H. rewrite orb_false_r in H. apply String.eqb_eq in H. subst q.
      exists "eq". split; [left; reflexivity|]. auto.
  - destruct (IH H) as (key & value & op & Hin & Hq & Hop).
    exists key, value, op. split; [right; exact Hin|]. auto.
Qed.

Lemma buildFilters_keys_witness :
  has (buildFilters [("created_at", JObj [("gte", JStr "2024-01-01")])]) "created_at.gte" = true /\
  exists key value op, In (key, value) [("created_at", JObj [("gte", JStr "2024-01-01")])] /\
    "created_at.gte" = (key ++ "." ++ op)%string /\
    (if is_object value then has (entries value) op = true else op = "eq").
Proof.
  split; [reflexivity|].
  apply buildFilters_keys. reflexivity.
Defined.

Lemma to_uint_nonnil (n : nat) : Nat.to_uint n <> Decimal.Nil.
Proof.
  intros E. pose proof (DecimalNat.Unsigned.of_to n) as H. rewrite E in H.
  simpl in H. subst n. discriminate E.
Qed.

Lemma index_key_digits (i : nat) : NilZero.uint_of_string (index_key i) = Some (Nat.to_uint i).
Proof. apply NilZero.usu, to_uint_nonnil. Qed.

Lemma index_key_inj (i j : nat) : index_key i = index_key j -> i = j.
Proof.
  intros E. apply (f_equal NilZero.uint_of_string) in E. rewrite !index_key_digits in E.
  injection E as E.
  rewrite <- (DecimalNat.Unsigned.of_to i), <- (DecimalNat.Unsigned.of_to j), E. reflexivity.
Qed.

Lemma index_entries_keys (n : nat) (xs : list jsval) :
  map fst (index_entries n xs) = map index_key (seq n (length xs)).
Proof. revert n. induction xs as [|x xs IH]; intros n; simpl; auto. now rewrite IH. Qed.

Lemma index_entries_NoDup (n : nat) (xs : list jsval) : NoDup (map fst (index_entries n xs)).
Proof.
  rewrite index_entries_keys. apply NoDup_map_NoDup_ForallPairs; [|apply seq_NoDup].
  intros i j _ _. apply index_key_inj.
Qed.

Lemma index_entries_get (n i : nat) (xs : list jsval) :
  get (index_entries n xs) (index_key (n + i)) = nth i xs JUndef.
Proof.
  revert n i. induction xs as [|x xs IH]; intros n i; simpl; [destruct i; reflexivity|].
  destruct (String.eqb_spec (index_key (n + i)) (index_key n)) as [E|E].
  - apply index_key_inj in E. assert (i = 0) as -> by lia. reflexivity.
  - destruct i as [|i]; [rewrite Nat.add_0_r in E; contradiction|].
    replace (n + S i) with (S n + i) by lia. apply IH.
Qed.

Lemma index_entries_not_eq (n : nat) (xs : list jsval) : has (index_entries n xs) "eq" = false.
Proof.
  revert n. induction xs as [|x xs IH]; intros n; cbn [index_entries has]; auto.
  rewrite IH, orb_false_r. apply String.eqb_neq. intros E.
  pose proof (index_key_digits n) as H. rewrite <- E in H. discriminate H.
Qed.



(** ** Search post-processing *)

Lemma nth_map_lt {A B} (f : A -> B) (l : list A) (d : B) (d' : A) (i : nat) :
  i < length l -> nth i (map f l) d = f (nth i l d').
Proof.
  intros Hi. rewrite (nth_indep (map f l) d (f d')) by (rewrite length_map; exact Hi).
  apply map_nth.
Qed.

Lemma select_row_acc (fs : list string) (item acc : obj) (k : string) :
  get (fold_left (fun filtered field =>
                    if is_undefined (get item field) then filtered
                    else set filtered field (get item field)) fs acc) k
  = if (existsb (String.eqb k) fs && negb (is_undefined (get item k)))%bool
    then get item k else get acc k.
Proof.
  revert acc. induction fs as [|f fs IH]; intros acc; cbn [fold_left existsb]; [reflexivity|].
  rewrite IH. destruct (String.eqb_spec k f) as [->|Hne].
  - destruct (is_undefined (get item f)) eqn:Eu; cbn [orb andb negb].
    + destruct (existsb (String.eqb f) fs); reflexivity.
    + rewrite get_set_same. destruct (existsb (String.eqb f) fs); reflexivity.
  - cbn [orb]. destruct (existsb (String.eqb k) fs && negb (is_undefined (get item k)))%bool; [reflexivity|].
    destruct (is_undefined (get item f)); [reflexivity|]. apply get_set_other. congruence.
Qed.

Lemma select_row_has_acc (fs : list string) (item acc : obj) (k : string) :
  has (fold_left (fun filtered field =>
                    if is_undefined (get item field) then filtered
                    else set filtered field (get item field)) fs acc) k
  = (has acc k || (existsb (String.eqb k) fs && negb (is_undefined (get item k))))%bool.
Proof.
  revert acc. induction fs as [|f fs IH]; intros acc; cbn [fold_left existsb].
  - now rewrite orb_false_r.
  - rewrite IH. destruct (String.eqb_spec k f) as [->|Hne].
    + destruct (is_undefined (get item f)) eqn:Eu; cbn [orb andb negb].
      * now rewrite andb_false_r, orb_false_r.
      * rewrite has_set, String.eqb_refl, andb_true_r. destruct (has acc f); reflexivity.
    + cbn [orb]. destruct (is_undefined (get item f)); [reflexivity|].
      rewrite has_set. replace (String.eqb k f) with false by (symmetry; apply String.eqb_neq; exact Hne).
      reflexivity.
Qed.

Lemma select_row_get (fs : list string) (item : obj) (k : string) :
  get (select_row fs item) k = if existsb (String.eqb k) fs then get item k else JUndef.
Proof.
  unfold select_row. rewrite select_row_acc.
  destruct (existsb (String.eqb k) fs); [|reflexivity]. cbn [andb].
  destruct (is_undefined (get item k)) eqn:E; [|reflexivity].
  destruct (get item k); try discriminate. reflexivity.
Qed.

Lemma select_row_has (fs : list string) (item : obj) (k : string) :
  has (select_row fs item) k = (existsb (String.eqb k) fs && negb (is_undefined (get item k)))%bool.
Proof. unfold select_row. rewrite select_row_has_acc. reflexivity. Qed.



(** With [includeDistance], every row keeps its properties and gets a
    [similarity]: its own unless that is [null] or [undefined], [0]
    then. *)
Theorem apply_includeDistance_similarity (options : option SearchOptions) (results : list obj) :
  opt sr_includeDistance options = Some true ->
  length (apply_includeDistance options results) = length results /\
  forall i k, i < length results ->
    get (nth i (apply_includeDistance options results) []) k
      = (if String.eqb k "similarity"
         then coalesce_v (get (nth i results []) "similarity") (JNum 0%float)
         else get (nth i results []) k) /\
    has (nth i (apply_includeDistance options results) []) k
      = (String.eqb k "similarity" || has (nth i results []) k)%bool.
Proof.
  intros Hd. unfold apply_includeDistance. rewrite Hd. cbv beta iota. split; [apply length_map|].
  intros i k Hi.
  rewrite (nth_map_lt (fun item => set item "similarity"
             (coalesce_v (get item "similarity") (JNum 0%float))) results [] [] i Hi). split; [|apply has_set].
  destruct (String.eqb_spec k "similarity") as [->|Hne].
  - apply get_set_same.
  - apply get_set_other. exact Hne.
Qed.

Lemma apply_includeDistance_similarity_witness :
  let options := Some {| sr_table := None; sr_limit := None; sr_threshold := None;
                         sr_filters := None; sr_metadata := None; sr_select := None;
                         sr_orderBy := None; sr_includeDistance := Some true; sr_rpc := None |} in
  get (nth 0 (apply_includeDistance options [[("id", JStr "1"); ("similarity", JNull)]]) [])
      "similarity" = JNum 0%float.
Proof.
  intros options.
  destruct (proj2 (apply_includeDistance_similarity options [[("id", JStr "1"); ("similarity", JNull)]]
                     eq_refl) 0 "similarity" ltac:(simpl; lia)) as [G _].
  rewrite G. reflexivity.
Defined.

(** ** Calls made by [search] *)

(** [search] calls the provider once, with the query, then (when that
    answers) the [rpc] once: the procedure [options.rpc ?? "match_documents"]
    with the resolved table, [options.threshold] (else the client's
    default), [options.limit] (else [10]) and the first embedding. It makes
    no other call, so in particular no insert. *)
Theorem search_calls (createEmbedding : trace -> jsval -> err + list jsval)
    (rpc : trace -> string -> obj -> err + (option (list obj) * option string))
    (c : EmbeddingsClient) (query : string) (options : option SearchOptions) (t : trace) :
  exists l, snd (search createEmbedding rpc c query options t) = t ++ l /\
    (l = [] \/ l = [EvEmbed (JStr query)] \/
     exists queryEmbedding params,
       createEmbedding t (JStr query) = inr queryEmbedding /\
       l = [EvEmbed (JStr query); EvRpc (search_rpc_name options) params] /\
       get params "table_name" = JStr (resolve_search_table c options) /\
       get params "match_threshold" = JNum (coalesce (opt sr_threshold options) (defaultThreshold c)) /\
       get params "match_count" = JNum (coalesce (opt sr_limit options) 10%float) /\
       get params "query_embedding" = nth 0 queryEmbedding JUndef).
Proof.
  destruct (truthy_str (resolve_search_table c options)) eqn:Ht.
  - destruct (createEmbedding t (JStr query)) as [e|qe] eqn:He.
    + exists [EvEmbed (JStr query)]. split; [|right; left; reflexivity].
      unfold search. cbv zeta. rewrite Ht. cbn [negb]. unfold bind, create. rewrite He. reflexivity.
    + exists [EvEmbed (JStr query);
              EvRpc (search_rpc_name options) (rpc_params c (resolve_search_table c options) qe options)].
      split.
      * rewrite (search_unfold createEmbedding rpc c query options t qe Ht He).
        destruct (rpc _ _ _) as [e|[data [m|]]]; unfold search_handler;
          try destruct (is_DatabaseError _); reflexivity.
      * right; right. exists qe, (rpc_params c (resolve_search_table c options) qe options).
        split; [reflexivity|]. split; [reflexivity|].
        unfold rpc_params. cbv zeta.
        repeat split;
          (destruct (opt sr_metadata options); [rewrite get_set_other by discriminate|]);
          (destruct (opt sr_filters options); [rewrite get_set_other by discriminate|]);
          reflexivity.
  - exists []. split; [|left; reflexivity].
    unfold search. rewrite Ht. simpl. now rewrite app_nil_r.
Qed.

(** A provider failure in [search] propagates as it is (it is raised
    before the [try]), after the one provider call and without calling the
    [rpc]. *)
Theorem search_provider_error (createEmbedding : trace -> jsval -> err + list jsval)
    (rpc : trace -> string -> obj -> err + (option (list obj) * option string))
    (c : EmbeddingsClient) (query : string) (options : option SearchOptions) (t : trace) (e : err) :
  truthy_str (resolve_search_table c options) = true ->
  createEmbedding t (JStr query) = inl e ->
  search createEmbedding rpc c query options t = (inl e, t ++ [EvEmbed (JStr query)]).
Proof.
  intros Ht He. unfold search. cbv zeta. rewrite Ht. cbn [negb].
  unfold bind, create. rewrite He. reflexivity.
Qed.

(** A provider that fails. *)
Lemma search_provider_error_witness :
  truthy_str (resolve_search_table client_default None) = true /\
  search (fun _ _ => inl (EmbeddingProviderError "OpenAI embedding error: quota" "openai"))
         rpc_throws client_default "q" None []
  = (inl (EmbeddingProviderError "OpenAI embedding error: quota" "openai"), [EvEmbed (JStr "q")]).
Proof.
  split; [reflexivity|].
  apply (search_provider_error (fun _ _ => inl (EmbeddingProviderError "OpenAI embedding error: quota" "openai"))
           rpc_throws client_default "q" None [] _); reflexivity.
Defined.

(** When no table name resolves (an empty [options.table], or an empty
    table given to the constructor), [search] and [store] fail with the
    [ValidationError] before calling anything. *)
Theorem no_table_no_call (createEmbedding : trace -> jsval -> err + list jsval)
    (uuid : nat -> string) (insert : trace -> string -> list obj -> err + option string)
    (rpc : trace -> string -> obj -> err + (option (list obj) * option string))
    (c : EmbeddingsClient) (fuel : nat) (t : trace) :
  (forall query options, truthy_str (resolve_search_table c options) = false ->
     search createEmbedding rpc c query options t = (inl (ValidationError table_required), t)) /\
  (forall data options, truthy_str (resolve_store_table c options) = false ->
     store createEmbedding uuid insert fuel c data options t = (inl (ValidationError table_required), t)).
Proof.
  split.
  - intros query options Ht. unfold search. rewrite Ht. reflexivity.
  - intros data options Ht. unfold store. rewrite Ht. reflexivity.
Qed.

Lemma no_table_no_call_witness :
  search provider_ok rpc_throws (new_EmbeddingsClient {| cfg_table := Some ""; cfg_threshold := None |})
         "q" None [] = (inl (ValidationError table_required), []) /\
  store provider_ok uuid_mock insert_ok 3
        (new_EmbeddingsClient {| cfg_table := Some ""; cfg_threshold := None |}) docs_abc None []
  = (inl (ValidationError table_required), []).
Proof.
  split.
  - apply (proj1 (no_table_no_call provider_ok uuid_mock insert_ok rpc_throws
                    (new_EmbeddingsClient {| cfg_table := Some ""; cfg_threshold := None |}) 3 []));
      reflexivity.
  - apply (proj2 (no_table_no_call provider_ok uuid_mock insert_ok rpc_throws
                    (new_EmbeddingsClient {| cfg_table := Some ""; cfg_threshold := None |}) 3 []));
      reflexivity.
Defined.

(** ** Phases of [store] *)

Lemma embeds_app t1 t2 : embeds (t1 ++ t2) = embeds t1 ++ embeds t2.
Proof. induction t1 as [|[] t1 IH]; simpl; rewrite ?IH; reflexivity. Qed.

Lemma process_item_trace createEmbedding uuid generateIds item t :
  exists pre, snd (process_item createEmbedding uuid generateIds item t) = t ++ pre /\
    inserts pre = [] /\ embeds pre = [get (normalizeStoreInput item) "content"].
Proof.
  unfold process_item, bind, create, ret. cbv zeta.
  destruct (createEmbedding t (get (normalizeStoreInput item) "content")).
  - eexists. split; [reflexivity|]. split; reflexivity.
  - destruct (truthy (get (normalizeStoreInput item) "id")); [|destruct generateIds];
      unfold generateId.
    + eexists. split; [reflexivity|]. split; reflexivity.
    + eexists. split; [rewrite <- app_assoc; reflexivity|]. split; reflexivity.
    + eexists. split; [reflexivity|]. split; reflexivity.
Qed.

Lemma process_items_trace createEmbedding uuid generateIds data t :
  exists pre, snd (process_items createEmbedding uuid generateIds data t) = t ++ pre /\
    inserts pre = [] /\
    (forall records, fst (process_items createEmbedding uuid generateIds data t) = inr records ->
       embeds pre = map (fun item => get (normalizeStoreInput item) "content") data).
Proof.
  revert t. induction data as [|item data IH]; intros t.
  - exists []. split; [symmetry; apply app_nil_r|]. split; [reflexivity|]. reflexivity.
  - destruct (process_item_trace createEmbedding uuid generateIds item t) as (p1 & E1 & I1 & B1).
    cbn [process_items]. unfold bind, ret.
    destruct (process_item createEmbedding uuid generateIds item t) as [[e|r] t1] eqn:Ep;
      cbn [snd] in E1; subst t1.
    + exists p1. split; [reflexivity|]. split; [exact I1|]. intros ? Hc; discriminate Hc.
    + destruct (IH (t ++ p1)) as (p2 & E2 & I2 & B2).
      destruct (process_items createEmbedding uuid generateIds data (t ++ p1)) as [[e|rs] t2];
        cbn [snd fst] in E2, B2 |- *; subst t2.
      * exists (p1 ++ p2). split; [symmetry; apply app_assoc|]. split; [rewrite inserts_app, I1, I2; reflexivity|].
        intros ? Hc; discriminate Hc.
      * exists (p1 ++ p2). split; [symmetry; apply app_assoc|]. split; [rewrite inserts_app, I1, I2; reflexivity|].
        intros records _. rewrite embeds_app, B1, (B2 rs eq_refl). reflexivity.
Qed.

Lemma insert_loop_trace insert fuel table batchSize records i t :
  exists post, snd (insert_loop insert fuel table batchSize records i t) = t ++ post /\
    Forall (is_insert_into table) post.
Proof.
  revert i t. induction fuel as [|fuel IH]; intros i t; cbn [insert_loop].
  - destruct (i <? _)%Z; exists []; (split; [symmetry; apply app_nil_r|constructor]).
  - destruct (i <? _)%Z; [|exists []; (split; [symmetry; apply app_nil_r|constructor])].
    unfold bind, call_insert.
    destruct (insert t table (js_slice records i (i + batchSize))) as [e|[m|]].
    + eexists. split; [reflexivity|]. repeat constructor. eexists; reflexivity.
    + eexists. split; [reflexivity|]. repeat constructor. eexists; reflexivity.
    + destruct (IH (i + batchSize)%Z (t ++ [EvInsert table (js_slice records i (i + batchSize))]))
        as (post & E & F).
      rewrite E, <- app_assoc. eexists. split; [reflexivity|].
      constructor; [eexists; reflexivity|exact F].
Qed.

Lemma insert_loop_nonpos insert fuel table batchSize records i t :
  records <> [] -> (batchSize <= 0)%Z -> (i <= 0)%Z ->
  (forall t' tb rows, insert t' tb rows = inr None) ->
  fst (insert_loop insert fuel table batchSize records i t) = inr OutOfFuel /\
  length (inserts (snd (insert_loop insert fuel table batchSize records i t)))
  = length (inserts t) + fuel.
Proof.
  intros Hne Hb. revert i t. induction fuel as [|fuel IH]; intros i t Hi Hok;
    cbn [insert_loop];
    (replace (i <? Z.of_nat (length records))%Z with true
       by (symmetry; apply Z.ltb_lt; destruct records; [congruence|simpl; lia])).
  - split; [reflexivity|simpl; lia].
  - unfold bind, call_insert. rewrite Hok.
    destruct (IH (i + batchSize)%Z (t ++ [EvInsert table (js_slice records i (i + batchSize))])
                ltac:(lia) Hok) as [F L].
    split; [exact F|]. rewrite L, inserts_app. simpl. rewrite length_app. simpl. lia.
Qed.

(** [store] embeds every document before its first insert: its calls are
    those of the assembly loop, which inserts nothing, followed by inserts
    into the resolved table only; when any insert is made, the assembly
    loop has embedded the content of every document, in input order. *)
Theorem store_phases (createEmbedding : trace -> jsval -> err + list jsval) (uuid : nat -> string)
    (insert : trace -> string -> list obj -> err + option string)
    (fuel : nat) (c : EmbeddingsClient) (data : list obj) (options : option StoreOptions)
    (t : trace) :
  exists pre post,
    snd (store createEmbedding uuid insert fuel c data options t) = t ++ pre ++ post /\
    inserts pre = [] /\
    Forall (is_insert_into (resolve_store_table c options)) post /\
    (post <> [] -> embeds pre = map (fun item => get (normalizeStoreInput item) "content") data).
Proof.
  destruct (truthy_str (resolve_store_table c options)) eqn:Ht.
  - rewrite store_unfold by exact Ht.
    destruct (process_items_trace createEmbedding uuid (store_generateIds options) data t)
      as (pre & E & I & B).
    destruct (process_items createEmbedding uuid (store_generateIds options) data t)
      as [[e|records] t1]; cbn [snd fst] in E, B; subst t1.
    + exists pre, []. split; [rewrite app_nil_r; reflexivity|].
      split; [exact I|]. split; [constructor|]. intros H; congruence.
    + destruct (insert_loop_trace insert fuel (resolve_store_table c options)
                  (store_batchSize options) records 0 (t ++ pre)) as (post & E2 & F).
      exists pre, post. rewrite E2, app_assoc. split; [reflexivity|].
      split; [exact I|]. split; [exact F|]. intros _. exact (B records eq_refl).
  - exists [], []. unfold store. rewrite Ht. cbn. split; [rewrite app_nil_r; reflexivity|].
    split; [reflexivity|]. split; [constructor|]. intros H; congruence.
Qed.

(** With a negative [batchSize] the loop index only decreases: for a
    non-empty input, a provider that answers and inserts that succeed,
    [store] never returns, making one insert per iteration. *)
Theorem store_negative_batch_diverges (createEmbedding : trace -> jsval -> err + list jsval)
    (uuid : nat -> string) (insert : trace -> string -> list obj -> err + option string)
    (c : EmbeddingsClient) (data : list obj) (options : option StoreOptions) (t : trace) :
  (store_batchSize options < 0)%Z -> data <> [] ->
  truthy_str (resolve_store_table c options) = true ->
  (forall t' x, exists v, createEmbedding t' x = inr v) ->
  (forall t' tb rows, insert t' tb rows = inr None) ->
  forall fuel,
    fst (store createEmbedding uuid insert fuel c data options t) = inr OutOfFuel /\
    length (inserts (snd (store createEmbedding uuid insert fuel c data options t)))
    = length (inserts t) + fuel.
Proof.
  intros Hb Hne Ht Hprov Hok fuel.
  destruct (process_items_ok createEmbedding uuid Hprov (store_generateIds options) data t)
    as (records & t1 & E & L & I).
  rewrite store_unfold, E by exact Ht. rewrite <- I.
  apply insert_loop_nonpos; [|lia|lia|exact Hok].
  intros ->. destruct data; [congruence|discriminate].
Qed.

Lemma store_negative_batch_diverges_witness :
  fst (store provider_ok uuid_mock insert_ok 4 client_default docs_abc
             (Some (store_options None None (Some (-1)%Z))) []) = inr OutOfFuel /\
  length (inserts (snd (store provider_ok uuid_mock insert_ok 4 client_default docs_abc
                              (Some (store_options None None (Some (-1)%Z))) []))) = 4.
Proof.
  apply (store_negative_batch_diverges provider_ok uuid_mock insert_ok client_default docs_abc
           (Some (store_options None None (Some (-1)%Z))) []).
  - reflexivity.
  - discriminate.
  - reflexivity.
  - intros t' x. eexists. reflexivity.
  - intros t' tb rows. reflexivity.
Defined.

(** ** The stored record *)

Lemma has_filter_special (l : obj) x :
  has (filter (fun kv => negb (special_key (fst kv))) l) x = (negb (special_key x) && has l x)%bool.
Proof.
  induction l as [|[k v] l IH]; simpl; [now rewrite andb_false_r|].
  destruct (String.eqb_spec x k) as [->|Hne].
  - destruct (special_key k) eqn:Es; simpl; [exact IH|now rewrite String.eqb_refl].
  - destruct (special_key k); simpl; rewrite IH;
      [|apply String.eqb_neq in Hne; rewrite Hne]; reflexivity.
Qed.

Lemma get_filter_special (l : obj) x :
  special_key x = false ->
  get (filter (fun kv => negb (special_key (fst kv))) l) x = get l x.
Proof.
  intros Hx. induction l as [|[k v] l IH]; simpl; auto.
  destruct (String.eqb_spec x k) as [->|Hne].
  - rewrite Hx. simpl. now rewrite String.eqb_refl.
  - apply String.eqb_neq in Hne as Hne'.
    destruct (special_key k); simpl; rewrite ?Hne'; exact IH.
Qed.

Lemma NoDup_filter_special (l : obj) :
  NoDup (map fst l) -> NoDup (map fst (filter (fun kv => negb (special_key (fst kv))) l)).
Proof.
  induction l as [|[k v] l IH]; simpl; intros Hnd; [constructor|].
  inversion Hnd as [|? ? Hnin Hnd']; subst.
  destruct (special_key k); simpl; [auto|].
  constructor; [|auto].
  intros Hin. apply Hnin. apply has_In in Hin. rewrite has_filter_special in Hin.
  apply andb_true_iff in Hin as [_ Hin]. apply has_In. exact Hin.
Qed.

(** The record assembled for a document answers, for every property
    except [id] (set by the [id] rule), the document's [content], its
    [metadata] (or [{}] when [null] or [undefined]), and every other
    property of the normalized document as it is: a document's own
    [embedding] thus replaces the vector the provider returned, which the
    record gets only when the document has none. *)
Theorem process_item_fields (createEmbedding : trace -> jsval -> err + list jsval)
    (uuid : nat -> string) (generateIds : bool) (item : obj) (t : trace) (v : list jsval) :
  NoDup (map fst (normalizeStoreInput item)) ->
  createEmbedding t (get (normalizeStoreInput item) "content") = inr v ->
  exists record t', process_item createEmbedding uuid generateIds item t = (inr record, t') /\
    forall k, k <> "id" ->
      has record k
      = (String.eqb k "content" || String.eqb k "embedding" || String.eqb k "metadata"
         || has (normalizeStoreInput item) k)%bool /\
      get record k
      = (if String.eqb k "content" then get (normalizeStoreInput item) "content"
         else if String.eqb k "metadata"
         then coalesce_v (get (normalizeStoreInput item) "metadata") (JObj [])
         else if has (normalizeStoreInput item) k then get (normalizeStoreInput item) k
         else if String.eqb k "embedding" then nth 0 v JUndef
         else JUndef).
Proof.
  intros Hnd Hv.
  assert (Hrec : forall k, k <> "id" ->
    has (record_of (normalizeStoreInput item) v) k
      = (String.eqb k "content" || String.eqb k "embedding" || String.eqb k "metadata"
         || has (normalizeStoreInput item) k)%bool /\
    get (record_of (normalizeStoreInput item) v) k
      = (if String.eqb k "content" then get (normalizeStoreInput item) "content"
         else if String.eqb k "metadata"
         then coalesce_v (get (normalizeStoreInput item) "metadata") (JObj [])
         else if has (normalizeStoreInput item) k then get (normalizeStoreInput item) k
         else if String.eqb k "embedding" then nth 0 v JUndef
         else JUndef)).
  { intros k Hk. unfold record_of, spread. split.
    - rewrite has_fold_set, has_filter_special. unfold special_key. cbn [has].
      apply String.eqb_neq in Hk. rewrite Hk.
      destruct (String.eqb k "content"), (String.eqb k "embedding"), (String.eqb k "metadata");
        reflexivity.
    - rewrite get_fold_set by (apply NoDup_filter_special; exact Hnd).
      rewrite has_filter_special. unfold special_key. apply String.eqb_neq in Hk as Hk'.
      rewrite Hk'.
      destruct (String.eqb_spec k "content") as [->|Hc]; [reflexivity|].
      destruct (String.eqb_spec k "metadata") as [->|Hm]; [reflexivity|].
      cbn [orb negb andb].
      rewrite get_filter_special
        by (unfold special_key; apply String.eqb_neq in Hc, Hm; rewrite Hc, Hm, Hk'; reflexivity).
      destruct (has (normalizeStoreInput item) k); [reflexivity|].
      cbn [get]. apply String.eqb_neq in Hc, Hm. rewrite Hc, Hm.
      destruct (String.eqb k "embedding"); reflexivity. }
  unfold process_item, bind, create, ret. cbv zeta. rewrite Hv.
  destruct (truthy (get (normalizeStoreInput item) "id")); [|destruct generateIds];
    unfold generateId; eexists _, _; (split; [reflexivity|]); intros k Hk;
    rewrite ?has_set, ?get_set_other by exact Hk;
    (apply String.eqb_neq in Hk as Hk'; rewrite ?Hk'; apply Hrec; exact Hk).
Qed.

Lemma process_item_fields_witness :
  NoDup (map fst (normalizeStoreInput [("content", JStr "x"); ("embedding", JArr [])])) /\
  provider_ok [] (get (normalizeStoreInput [("content", JStr "x"); ("embedding", JArr [])]) "content")
    = inr [JArr [JNum 0.1%float; JNum 0.2%float; JNum 0.3%float]] /\
  exists record t',
    process_item provider_ok uuid_mock false [("content", JStr "x"); ("embedding", JArr [])] []
    = (inr record, t') /\ get record "embedding" = JArr [] /\ get record "metadata" = JObj [].
Proof.
  assert (Hnd : NoDup (map fst (normalizeStoreInput [("content", JStr "x"); ("embedding", JArr [])]))).
  { cbn. constructor; [simpl; intros [H|[]]; discriminate|]. constructor; [intros []|constructor]. }
  split; [exact Hnd|]. split; [reflexivity|].
  destruct (process_item_fields provider_ok uuid_mock false [("content", JStr "x"); ("embedding", JArr [])]
              [] [JArr [JNum 0.1%float; JNum 0.2%float; JNum 0.3%float]] Hnd eq_refl)
    as (record & t' & E & F).
  exists record, t'. split; [exact E|].
  split; [rewrite (proj2 (F "embedding" ltac:(discriminate))); reflexivity|].
  rewrite (proj2 (F "metadata" ltac:(discriminate))); reflexivity.
Defined.

(** ** The [orderBy] sort *)

Section V8SortProps.
Context {A : Type} (cmp : A -> A -> Z).

Lemma insert_pivot_perm (s : list A) (p : A) : Permutation (insert_pivot cmp s p) (p :: s).
Proof.
  unfold insert_pivot.
  set (n := bin_search cmp (S (length s)) p s 0 (length s)).
  pose proof (Permutation_middle (firstn n s) (skipn n s) p) as H.
  rewrite firstn_skipn in H. symmetry. exact H.
Qed.

Lemma fold_insert_perm (rest acc : list A) :
  Permutation (fold_left (insert_pivot cmp) rest acc) (acc ++ rest).
Proof.
  revert acc. induction rest as [|x rest IH]; intros acc; simpl.
  - now rewrite app_nil_r.
  - rewrite IH. rewrite (Permutation_app_tail rest (insert_pivot_perm acc x)).
    simpl. apply Permutation_middle.
Qed.

Lemma count_and_make_run_perm (l : list A) : Permutation (fst (count_and_make_run cmp l)) l.
Proof.
  destruct l as [|a0 [|a1 l']]; try reflexivity.
  unfold count_and_make_run. destruct (cmp a1 a0 <? 0)%Z; cbn [fst]; [|reflexivity].
  set (L := a0 :: a1 :: l'). set (r := 2 + run_desc cmp a1 l').
  transitivity (firstn r L ++ skipn r L).
  - apply Permutation_app_tail. symmetry. apply Permutation_rev.
  - rewrite firstn_skipn. reflexivity.
Qed.

Lemma v8_sort_perm (l : list A) : Permutation (v8_sort cmp l) l.
Proof.
  unfold v8_sort. destruct (Nat.ltb (length l) 2); [reflexivity|].
  pose proof (count_and_make_run_perm l) as P.
  destruct (count_and_make_run cmp l) as [l' r]. simpl in P.
  rewrite fold_insert_perm, firstn_skipn. exact P.
Qed.

Lemma SS_app (R : A -> A -> Prop) (l1 l2 : list A) :
  StronglySorted R l1 -> StronglySorted R l2 ->
  (forall x y, In x l1 -> In y l2 -> R x y) -> StronglySorted R (l1 ++ l2).
Proof.
  induction l1 as [|a l1 IH]; simpl; intros H1 H2 Hx; [exact H2|].
  apply StronglySorted_inv in H1 as [H1 F1]. constructor.
  - apply IH; auto.
  - apply Forall_app. split; [exact F1|]. apply Forall_forall. intros y Hy. apply Hx; auto.
Qed.

Lemma SS_app_inv (R : A -> A -> Prop) (l1 l2 : list A) :
  StronglySorted R (l1 ++ l2) ->
  StronglySorted R l1 /\ StronglySorted R l2 /\ (forall x y, In x l1 -> In y l2 -> R x y).
Proof.
  induction l1 as [|a l1 IH]; simpl; intros H.
  - split; [constructor|]. split; [exact H|]. intros x y [].
  - apply StronglySorted_inv in H as [H F]. apply Forall_app in F as [F1 F2].
    destruct (IH H) as (S1 & S2 & C). split; [constructor; auto|]. split; [exact S2|].
    intros x y [<-|Hx] Hy; [rewrite Forall_forall in F2; auto|auto].
Qed.

Lemma SS_rev (R : A -> A -> Prop) (l : list A) :
  StronglySorted (fun a b => R b a) l -> StronglySorted R (rev l).
Proof.
  induction l as [|a l IH]; simpl; intros H; [constructor|].
  apply StronglySorted_inv in H as [H F]. apply SS_app.
  - apply IH, H.
  - repeat constructor.
  - intros x y Hx [<-|[]]. apply in_rev in Hx. rewrite Forall_forall in F. apply F, Hx.
Qed.

Lemma SS_nth (R : A -> A -> Prop) (s : list A) (d : A) i j :
  StronglySorted R s -> i < j -> j < length s -> R (nth i s d) (nth j s d).
Proof.
  revert i j. induction s as [|a s IH]; intros i j H Hij Hj; simpl in Hj; [lia|].
  apply StronglySorted_inv in H as [H F].
  destruct i as [|i], j as [|j]; try lia; simpl.
  - rewrite Forall_forall in F. apply F, nth_In. lia.
  - apply IH; auto; lia.
Qed.

Lemma SS_impl (R R' : A -> A -> Prop) (l : list A) :
  (forall a b, In a l -> In b l -> R a b -> R' a b) -> StronglySorted R l -> StronglySorted R' l.
Proof.
  induction l as [|a l IH]; intros Himp H; [constructor|].
  apply StronglySorted_inv in H as [H F]. constructor.
  - apply IH; [intros; apply Himp; simpl; auto|exact H].
  - rewrite Forall_forall in *. intros y Hy. apply Himp; simpl; auto.
Qed.

Lemma Forall_perm (P : A -> Prop) (l l' : list A) : Permutation l l' -> Forall P l -> Forall P l'.
Proof.
  intros HP H. rewrite Forall_forall in *. intros x Hx.
  apply H. apply (Permutation_in x (Permutation_sym HP) Hx).
Qed.

Lemma In_firstn' (y : A) n (l : list A) : In y (firstn n l) -> In y l.
Proof. intros H. rewrite <- (firstn_skipn n l). apply in_or_app. left. exact H. Qed.

Lemma Forall_firstn' (P : A -> Prop) n (l : list A) : Forall P l -> Forall P (firstn n l).
Proof. intros H. rewrite <- (firstn_skipn n l) in H. apply Forall_app in H. apply H. Qed.

Lemma Forall_skipn' (P : A -> Prop) n (l : list A) : Forall P l -> Forall P (skipn n l).
Proof. intros H. rewrite <- (firstn_skipn n l) in H. apply Forall_app in H. apply H. Qed.

Lemma Forall_nth' (P : A -> Prop) (l : list A) (d : A) i : Forall P l -> P d -> P (nth i l d).
Proof.
  intros H Hd. destruct (Nat.lt_ge_cases i (length l)) as [Hi|Hi].
  - rewrite Forall_forall in H. apply H, nth_In, Hi.
  - rewrite nth_overflow by exact Hi. exact Hd.
Qed.

Lemma run_desc_le prev (l : list A) : run_desc cmp prev l <= length l.
Proof.
  revert prev. induction l as [|x l IH]; intros prev; simpl; [lia|].
  destruct (cmp x prev <? 0)%Z; [specialize (IH x)|]; lia.
Qed.

(** The sort under a comparator consistent with a total preorder: [le a b]
    when [comparefn(a, b) < 0], total and transitive on the elements
    sorted, the elements satisfying [D]. *)
Variable D : A -> Prop.
Let le (a b : A) : Prop := (cmp a b < 0)%Z.
Hypothesis le_total : forall a b, D a -> D b -> le a b \/ le b a.
Hypothesis le_trans : forall a b c, D a -> D b -> D c -> le a b -> le b c -> le a c.

Lemma le_ltb a b : (cmp a b <? 0)%Z = true <-> le a b.
Proof. unfold le. apply Z.ltb_lt. Qed.

Lemma not_le_ltb a b : (cmp a b <? 0)%Z = false <-> ~ le a b.
Proof. unfold le. rewrite Z.ltb_ge. lia. Qed.

Lemma bin_search_spec fuel pivot (s : list A) left right :
  StronglySorted le s -> Forall D s -> D pivot ->
  left <= right <= length s -> right - left < fuel ->
  (forall i, i < left -> ~ le pivot (nth i s pivot)) ->
  (forall i, right <= i < length s -> le pivot (nth i s pivot)) ->
  bin_search cmp fuel pivot s left right <= length s /\
  (forall i, i < bin_search cmp fuel pivot s left right -> ~ le pivot (nth i s pivot)) /\
  (forall i, bin_search cmp fuel pivot s left right <= i < length s -> le pivot (nth i s pivot)).
Proof.
  intros Hs HD Hp. revert left right.
  induction fuel as [|fuel IH]; intros left right Hlr Hf Hl Hr; [lia|].
  cbn [bin_search].
  destruct (Nat.ltb_spec left right) as [Hlt|Hge]; [|split; [lia|]; split; auto; intros i Hi; apply Hr; lia].
  assert (Hd : (right - left) / 2 < right - left) by (apply Nat.div_lt; lia).
  set (mid := left + (right - left) / 2).
  assert (Hmid : left <= mid < right) by (unfold mid; lia).
  destruct (cmp pivot (nth mid s pivot) <? 0)%Z eqn:Ec.
  - apply le_ltb in Ec. apply IH; [lia|lia|exact Hl|].
    intros i Hi. destruct (Nat.eq_dec i mid) as [->|Hne]; [exact Ec|].
    apply (le_trans pivot (nth mid s pivot) (nth i s pivot));
      [exact Hp|apply Forall_nth'; auto|apply Forall_nth'; auto|exact Ec|].
    apply SS_nth; auto; lia.
  - apply not_le_ltb in Ec. apply IH; [lia|lia| |exact Hr].
    intros i Hi Hle. destruct (Nat.eq_dec i mid) as [->|Hne]; [exact (Ec Hle)|].
    apply Ec. apply (le_trans pivot (nth i s pivot) (nth mid s pivot));
      [exact Hp|apply Forall_nth'; auto|apply Forall_nth'; auto|exact Hle|].
    apply SS_nth; auto; lia.
Qed.

Lemma insert_pivot_sorted (s : list A) (pivot : A) :
  StronglySorted le s -> Forall D s -> D pivot -> StronglySorted le (insert_pivot cmp s pivot).
Proof.
  intros Hs HD Hp. unfold insert_pivot.
  destruct (bin_search_spec (S (length s)) pivot s 0 (length s) Hs HD Hp ltac:(lia) ltac:(lia)
              ltac:(intros; lia) ltac:(intros; lia)) as (Hlen & Hbefore & Hafter).
  set (p := bin_search cmp (S (length s)) pivot s 0 (length s)) in *.
  rewrite <- (firstn_skipn p s) in Hs.
  apply SS_app_inv in Hs as (S1 & S2 & C).
  assert (F1 : forall x, In x (firstn p s) -> le x pivot).
  { intros x Hx. apply (In_nth _ _ pivot) in Hx as (i & Hi & <-).
    rewrite length_firstn in Hi. rewrite nth_firstn.
    replace (Nat.ltb i p) with true by (symmetry; apply Nat.ltb_lt; lia).
    destruct (le_total (nth i s pivot) pivot) as [H|H]; auto.
    - apply Forall_nth'; auto.
    - exfalso. apply (Hbefore i); [lia|exact H]. }
  assert (F2 : forall x, In x (skipn p s) -> le pivot x).
  { intros x Hx. apply (In_nth _ _ pivot) in Hx as (i & Hi & <-).
    rewrite length_skipn in Hi. rewrite nth_skipn. apply Hafter. lia. }
  apply SS_app; [exact S1| |].
  - constructor; [exact S2|]. apply Forall_forall. exact F2.
  - intros x y Hx [<-|Hy]; [apply F1, Hx|apply C; auto].
Qed.

Lemma fold_insert_sorted (rest acc : list A) :
  StronglySorted le acc -> Forall D acc -> Forall D rest ->
  StronglySorted le (fold_left (insert_pivot cmp) rest acc).
Proof.
  revert acc. induction rest as [|x rest IH]; intros acc Ha HDa HDr; simpl; [exact Ha|].
  inversion HDr as [|? ? Hx HDr']; subst.
  apply IH; [apply insert_pivot_sorted; auto| |exact HDr'].
  apply (Forall_perm _ (x :: acc)); [symmetry; apply insert_pivot_perm|constructor; auto].
Qed.

Lemma run_desc_sorted prev (l : list A) :
  Forall D (prev :: l) ->
  StronglySorted (fun a b => le b a) (prev :: firstn (run_desc cmp prev l) l).
Proof.
  revert prev. induction l as [|x l IH]; intros prev HD; simpl.
  - repeat constructor.
  - destruct (cmp x prev <? 0)%Z eqn:E; simpl; [|repeat constructor].
    apply le_ltb in E. inversion HD as [|? ? Hp HD']; subst.
    inversion HD' as [|? ? Hx HDl]; subst.
    pose proof (IH x HD') as Hs. constructor; [exact Hs|].
    apply StronglySorted_inv in Hs as [_ F]. constructor; [exact E|].
    rewrite Forall_forall in F |- *. intros y Hy.
    apply (le_trans y x prev); auto.
    rewrite Forall_forall in HDl. apply HDl. exact (In_firstn' _ _ l Hy).
Qed.

Lemma run_asc_sorted prev (l : list A) :
  Forall D (prev :: l) -> StronglySorted le (prev :: firstn (run_asc cmp prev l) l).
Proof.
  revert prev. induction l as [|x l IH]; intros prev HD; simpl.
  - repeat constructor.
  - destruct (cmp x prev <? 0)%Z eqn:E; simpl; [repeat constructor|].
    apply not_le_ltb in E. inversion HD as [|? ? Hp HD']; subst.
    inversion HD' as [|? ? Hx HDl]; subst.
    assert (Hpx : le prev x) by (destruct (le_total x prev Hx Hp); [contradiction|assumption]).
    pose proof (IH x HD') as Hs. constructor; [exact Hs|].
    apply StronglySorted_inv in Hs as [_ F]. constructor; [exact Hpx|].
    rewrite Forall_forall in F |- *. intros y Hy.
    apply (le_trans prev x y); auto.
    rewrite Forall_forall in HDl. apply HDl. exact (In_firstn' _ _ l Hy).
Qed.

Lemma count_and_make_run_sorted (l : list A) :
  2 <= length l -> Forall D l ->
  StronglySorted le (firstn (snd (count_and_make_run cmp l)) (fst (count_and_make_run cmp l))).
Proof.
  intros Hl HD. destruct l as [|a0 [|a1 l']]; simpl in Hl; try lia.
  inversion HD as [|? ? H0 HD']; subst. inversion HD' as [|? ? H1 HDl]; subst.
  cbn [count_and_make_run]. destruct (cmp a1 a0 <? 0)%Z eqn:E; cbn [fst snd].
  - apply le_ltb in E.
    assert (Hlen : length (rev (firstn (2 + run_desc cmp a1 l') (a0 :: a1 :: l')))
                   = 2 + run_desc cmp a1 l').
    { rewrite length_rev, length_firstn. pose proof (run_desc_le a1 l'). simpl. lia. }
    rewrite firstn_app, Hlen, Nat.sub_diag, firstn_O, app_nil_r, firstn_all2 by lia.
    apply SS_rev. cbn [firstn Nat.add].
    pose proof (run_desc_sorted a1 l' HD') as Hs. constructor; [exact Hs|].
    apply StronglySorted_inv in Hs as [_ F]. constructor; [exact E|].
    rewrite Forall_forall in F |- *. intros y Hy.
    apply (le_trans y a1 a0); auto.
    rewrite Forall_forall in HDl. apply HDl.
    exact (In_firstn' _ _ l' Hy).
  - apply not_le_ltb in E. cbn [firstn Nat.add].
    assert (H01 : le a0 a1) by (destruct (le_total a1 a0 H1 H0); [contradiction|assumption]).
    pose proof (run_asc_sorted a1 l' HD') as Hs. constructor; [exact Hs|].
    apply StronglySorted_inv in Hs as [_ F]. constructor; [exact H01|].
    rewrite Forall_forall in F |- *. intros y Hy.
    apply (le_trans a0 a1 y); auto.
    rewrite Forall_forall in HDl. apply HDl.
    exact (In_firstn' _ _ l' Hy).
Qed.

Lemma v8_sort_sorted (l : list A) : Forall D l -> StronglySorted le (v8_sort cmp l).
Proof.
  intros HD. unfold v8_sort. destruct (Nat.ltb_spec (length l) 2) as [Hl|Hl].
  - destruct l as [|a [|b l]]; simpl in Hl; try lia; repeat constructor.
  - pose proof (count_and_make_run_sorted l Hl HD) as Hs.
    pose proof (count_and_make_run_perm l) as P.
    destruct (count_and_make_run cmp l) as [l' r]. cbn [fst snd] in Hs, P.
    apply fold_insert_sorted; [exact Hs| |].
    + apply Forall_firstn'. apply (Forall_perm _ l); [symmetry; exact P|exact HD].
    + apply Forall_skipn'. apply (Forall_perm _ l); [symmetry; exact P|exact HD].
Qed.

End V8SortProps.

Lemma ascii_compare_N (c1 c2 : ascii) : Ascii.compare c1 c2 = N.compare (N_of_ascii c1) (N_of_ascii c2).
Proof. reflexivity. Qed.

Lemma string_compare_not_gt_trans (s1 s2 s3 : string) :
  String.compare s1 s2 <> Gt -> String.compare s2 s3 <> Gt -> String.compare s1 s3 <> Gt.
Proof.
  revert s2 s3. induction s1 as [|c1 s1 IH]; intros [|c2 s2] [|c3 s3]; cbn [String.compare];
    try discriminate; try congruence.
  rewrite !ascii_compare_N.
  destruct (N.compare_spec (N_of_ascii c1) (N_of_ascii c2)) as [E12|E12|E12];
  destruct (N.compare_spec (N_of_ascii c2) (N_of_ascii c3)) as [E23|E23|E23];
  destruct (N.compare_spec (N_of_ascii c1) (N_of_ascii c3)) as [E13|E13|E13];
  intros H1 H2; try congruence; try lia.
  apply (IH s2 s3 H1 H2).
Qed.

Lemma string_ltb_false (x y : string) : String.ltb y x = false <-> String.compare x y <> Gt.
Proof.
  unfold String.ltb. rewrite String.compare_antisym.
  destruct (String.compare x y); simpl; split; intros H; try discriminate; try reflexivity; exfalso; apply H; reflexivity.
Qed.




(** ** Accepted [SupabaseAI] configurations *)

Lemma Prim2SF_zero : FloatOps.Prim2SF 0%float = SpecFloat.S754_zero false.
Proof. reflexivity. Qed.

Lemma float_pos_of_not_neg (x : float) :
  PrimFloat.ltb x 0 = false -> truthy_num x = true -> PrimFloat.ltb 0 x = true.
Proof.
  unfold truthy_num. rewrite !FloatAxioms.ltb_spec, !FloatAxioms.eqb_spec, Prim2SF_zero.
  destruct (FloatOps.Prim2SF x) as [[]|[]| |[] m e]; cbn; congruence.
Qed.

Lemma float_pos_of_not_le (x : float) :
  PrimFloat.leb x 0 = false -> PrimFloat.eqb x x = true -> PrimFloat.ltb 0 x = true.
Proof.
  rewrite FloatAxioms.leb_spec, FloatAxioms.ltb_spec, FloatAxioms.eqb_spec, Prim2SF_zero.
  destruct (FloatOps.Prim2SF x) as [[]|[]| |[] m e]; cbn; congruence.
Qed.

Lemma or_num_cases (v : option float) (d : float) : or_num v d = d \/ truthy_num (or_num v d) = true.
Proof.
  unfold or_num. destruct v as [x|]; [|left; reflexivity].
  destruct (truthy_num x) eqn:E; [right; exact E|left; reflexivity].
Qed.

Lemma or_str_truthy (v : option string) (d : string) :
  truthy_str d = true -> truthy_str (or_str v d) = true.
Proof.
  intros Hd. unfold or_str. destruct v as [s|]; [|exact Hd].
  destruct (truthy_str s) eqn:E; assumption.
Qed.



(** ** [OpenAIProvider] *)



(** ** [similarity] *)

(** [similarity(text1, text2)] calls the provider once, with
    [[text1, text2]], and nothing else; when the provider answers with two
    vectors of numbers it returns their [cosineSimilarity] (or its error),
    and when it answers with fewer than two vectors it throws the
    [TypeError] of reading [length] from [undefined]. *)
Theorem similarity_spec (createEmbedding : trace -> jsval -> err + list jsval)
    (text1 text2 : string) (t : trace) :
  snd (similarity createEmbedding text1 text2 t) = t ++ [EvEmbed (JArr [JStr text1; JStr text2])] /\
  (forall v1 v2 rest a b,
     createEmbedding t (JArr [JStr text1; JStr text2]) = inr (v1 :: v2 :: rest) ->
     vec_of v1 = Some a -> vec_of v2 = Some b ->
     fst (similarity createEmbedding text1 text2 t) = cosineSimilarity a b) /\
  (forall embeddings,
     createEmbedding t (JArr [JStr text1; JStr text2]) = inr embeddings -> length embeddings < 2 ->
     fst (similarity createEmbedding text1 text2 t)
     = inl (JsError "Cannot read properties of undefined (reading 'length')")).
Proof.
  unfold similarity, bind, create.
  destruct (createEmbedding t (JArr [JStr text1; JStr text2])) as [e|embeddings] eqn:E.
  - split; [reflexivity|]. split; intros; discriminate.
  - split.
    + destruct (vec_of (nth 0 embeddings JUndef)), (vec_of (nth 1 embeddings JUndef));
        try reflexivity.
      destruct (cosineSimilarity _ _); reflexivity.
    + split.
      * intros v1 v2 rest a b H Ha Hb. injection H as ->. cbn [nth]. rewrite Ha, Hb.
        destruct (cosineSimilarity a b); reflexivity.
      * intros embeddings' H Hl. injection H as <-.
        destruct embeddings as [|v1 [|v2 rest]]; cbn [nth vec_of]; [reflexivity| |simpl in Hl; lia].
        destruct (vec_of v1); reflexivity.
Qed.

Lemma similarity_spec_witness :
  fst (similarity provider_ok "a" "b" []) = inl (JsError "Cannot read properties of undefined (reading 'length')") /\
  fst (similarity (fun _ _ => inr [JArr [JNum 1%float; JNum 0%float]; JArr [JNum 0%float; JNum 1%float]])
                  "a" "b" [])
  = cosineSimilarity [1%float; 0%float] [0%float; 1%float].
Proof.
  split.
  - apply (proj2 (proj2 (similarity_spec provider_ok "a" "b" [])) _ eq_refl). simpl. lia.
  - apply (proj1 (proj2 (similarity_spec
             (fun _ _ => inr [JArr [JNum 1%float; JNum 0%float]; JArr [JNum 0%float; JNum 1%float]])
             "a" "b" [])) _ _ [] _ _ eq_refl); reflexivity.
Defined.

(** ** Generated ids *)

Lemma process_item_gen createEmbedding uuid item t v :
  createEmbedding t (get (normalizeStoreInput item) "content") = inr v ->
  exists record t', process_item createEmbedding uuid true item t = (inr record, t') /\
    get record "id" = (if truthy (get item "id") then get item "id" else JStr (uuid (count_gen t))) /\
    count_gen t' = count_gen t + (if truthy (get item "id") then 0 else 1).
Proof.
  intros Hv. unfold process_item, bind, create, ret, generateId. cbv zeta. rewrite Hv.
  destruct (normalize_id item) as [Ht Hg]. rewrite Ht.
  destruct (truthy (get item "id")) eqn:Hi.
  - eexists _, _. split; [reflexivity|]. rewrite get_set_same, Hg by reflexivity.
    split; [reflexivity|]. rewrite count_gen_app. simpl. lia.
  - eexists _, _. split; [reflexivity|]. rewrite get_set_same, count_gen_app.
    split; [simpl; rewrite Nat.add_0_r; reflexivity|].
    rewrite <- app_assoc, count_gen_app. simpl. lia.
Qed.

Lemma filter_firstn_lt {A} (p : A -> bool) (l : list A) (d : A) i j :
  i < j -> j <= length l -> p (nth i l d) = true ->
  S (length (filter p (firstn i l))) <= length (filter p (firstn j l)).
Proof.
  revert i j. induction l as [|x l IH]; intros i j Hij Hj Hp; simpl in Hj; [lia|].
  destruct i as [|i], j as [|j]; try lia.
  - cbn [firstn filter nth] in *. rewrite Hp. simpl. lia.
  - cbn [firstn filter nth] in *. specialize (IH i j ltac:(lia) ltac:(lia) Hp).
    destruct (p x); simpl; lia.
Qed.

(** With [generateId], the n-th record takes its document's own [id] when
    truthy, and otherwise the id of the next call to [generateId]: the
    k-th document without an [id] gets [uuid] number [count + k]. Two
    records without their own [id] thus never get the same one when the
    UUID source does not repeat. *)
Theorem store_generated_ids (createEmbedding : trace -> jsval -> err + list jsval)
    (uuid : nat -> string) (data : list obj) (t : trace) :
  (forall t' x, exists v, createEmbedding t' x = inr v) ->
  exists records t', process_items createEmbedding uuid true data t = (inr records, t') /\
    length records = length data /\
    (forall j, j < length data ->
       get (nth j records []) "id"
       = if truthy (get (nth j data []) "id") then get (nth j data []) "id"
         else JStr (uuid (count_gen t + length (filter (fun d => negb (truthy (get d "id")))
                                                        (firstn j data))))) /\
    ((forall m n, uuid m = uuid n -> m = n) ->
     forall i j, i < j < length data ->
       truthy (get (nth i data []) "id") = false -> truthy (get (nth j data []) "id") = false ->
       get (nth i records []) "id" <> get (nth j records []) "id").
Proof.
  intros Hprov.
  assert (Hids : forall t, exists records t',
    process_items createEmbedding uuid true data t = (inr records, t') /\
    length records = length data /\
    (forall j, j < length data ->
       get (nth j records []) "id"
       = if truthy (get (nth j data []) "id") then get (nth j data []) "id"
         else JStr (uuid (count_gen t + length (filter (fun d => negb (truthy (get d "id")))
                                                        (firstn j data)))))).
  { induction data as [|item data IH]; intros t0.
    - exists [], t0. split; [reflexivity|]. split; [reflexivity|]. intros j Hj; simpl in Hj; lia.
    - destruct (Hprov t0 (get (normalizeStoreInput item) "content")) as [v Hv].
      destruct (process_item_gen createEmbedding uuid item t0 v Hv) as (r & t1 & E1 & G1 & C1).
      destruct (IH t1) as (rs & t2 & E2 & L2 & G2).
      exists (r :: rs), t2. cbn [process_items]. unfold bind at 1. rewrite E1.
      unfold bind. rewrite E2. split; [reflexivity|]. split; [simpl; congruence|].
      intros [|j] Hj.
      + cbn [nth firstn filter length]. rewrite G1. rewrite Nat.add_0_r. reflexivity.
      + cbn [nth firstn filter]. rewrite (G2 j ltac:(simpl in Hj; lia)).
        destruct (truthy (get (nth j data []) "id")); [reflexivity|].
        rewrite C1. destruct (truthy (get item "id")); simpl; f_equal; f_equal; lia. }
  destruct (Hids t) as (records & t' & E & L & G).
  exists records, t'. split; [exact E|]. split; [exact L|]. split; [exact G|].
  intros Hinj i j Hij Hi Hj. rewrite (G i ltac:(lia)), (G j ltac:(lia)), Hi, Hj.
  intros Heq. injection Heq as Heq. apply Hinj in Heq.
  pose proof (filter_firstn_lt (fun d => negb (truthy (get d "id"))) data [] i j
                ltac:(lia) ltac:(lia) ltac:(cbv beta; rewrite Hi; reflexivity)). lia.
Qed.

Lemma store_generated_ids_witness :
  exists records t',
    process_items provider_ok (fun n => NilZero.string_of_uint (Nat.to_uint n)) true docs_abc []
    = (inr records, t') /\
    get (nth 2 records []) "id" = JStr "2".
Proof.
  destruct (store_generated_ids provider_ok (fun n => NilZero.string_of_uint (Nat.to_uint n))
              docs_abc [] ltac:(intros; eexists; reflexivity))
    as (records & t' & E & _ & G & _).
  exists records, t'. split; [exact E|]. rewrite (G 2 ltac:(simpl; lia)). reflexivity.
Defined.
